(** * pglocker: a session-scoped PostgreSQL advisory lock held by a goroutine

    Shallow embedding of [pglocker.go] and proofs about its lock lifecycle:
    the identifier mapper [lockID], the error classifier [ignoreErr], the
    two acquisition strategies behind [getLock], the release protocol
    [releaseLock], the facade [Lock] and the background task it starts.

    Sequential Go code is written in a small state monad over a store that
    holds the clock, the cancel functions called, the checked-out sessions,
    the channels, the started goroutines and the log of requests.  The
    database is a record of answers: every request is answered, with an
    error or without.  The goroutine started by [Lock] is a transition
    system over its program points; a schedule interleaves its steps with
    receives on the returned channel, calls of cancel functions and the
    passing of time. *)

From Stdlib Require Import ZArith String Ascii List Bool Lia.
From stdpp Require Import base list.
Import ListNotations.

Local Open Scope string_scope.
Local Open Scope list_scope.
Local Open Scope Z_scope.

(** ** Go error values *)

Module GoErr.

(** The dynamic values an [error] interface can hold.  The three sentinels
    are package-level variables of [context] and [database/sql]; every other
    error is a message, possibly wrapping another error ([%w]). *)
Inductive val : Type :=
| DeadlineExceeded                       (* context.DeadlineExceeded *)
| Canceled                               (* context.Canceled *)
| ErrConnDone                            (* sql.ErrConnDone *)
| ErrorString (msg : string)             (* errors.New, fmt.Errorf without %w, driver errors *)
| Wrapped (msg : string) (inner : val).  (* fmt.Errorf with %w *)

(** [error]: an interface value, [None] being [nil]. *)
Definition error : Type := option val.
Definition nil : error := None.

(** [err.Error()] *)
Definition Error (e : val) : string :=
  match e with
  | DeadlineExceeded => "context deadline exceeded"
  | Canceled => "context canceled"
  | ErrConnDone => "sql: connection is already closed"
  | ErrorString msg => msg
  | Wrapped msg _ => msg
  end.

(** [a == b] on non-nil interface values. *)
Fixpoint val_eqb (a b : val) : bool :=
  match a, b with
  | DeadlineExceeded, DeadlineExceeded => true
  | Canceled, Canceled => true
  | ErrConnDone, ErrConnDone => true
  | ErrorString m, ErrorString n => String.eqb m n
  | Wrapped m x, Wrapped n y => String.eqb m n && val_eqb x y
  | _, _ => false
  end.

(** [a == b] on [error]. *)
Definition eqb (a b : error) : bool :=
  match a, b with
  | None, None => true
  | Some x, Some y => val_eqb x y
  | _, _ => false
  end.

(** [err != nil] *)
Definition notnil (e : error) : bool :=
  match e with Some _ => true | None => false end.

(** [fmt.Errorf(prefix + "%v", err)]: the verb [%v] prints [<nil>] for a nil
    interface and [err.Error()] otherwise; the result is a new error that
    does not wrap [err]. *)
Definition Errorf_v (prefix : string) (err : error) : val :=
  ErrorString (String.append prefix
                 match err with
                 | None => "<nil>"
                 | Some e => Error e
                 end).

End GoErr.

Import GoErr.

(** ** hash/crc32 *)

Module crc32.

(** [crc32.IEEE] *)
Definition IEEE : Z := 0xedb88320.

(** One entry of the table built by [simpleMakeTable(poly)]:
    [crc := uint32(i); for j := 0; j < 8; j++ { if crc&1 == 1 { crc =
    (crc >> 1) ^ poly } else { crc >>= 1 } }]. *)
Definition shift1 (poly crc : Z) : Z :=
  if Z.testbit crc 0 then Z.lxor (Z.shiftr crc 1) poly else Z.shiftr crc 1.

Definition table (poly i : Z) : Z :=
  Nat.iter 8 (shift1 poly) i.

(** [simpleUpdate(crc, tab, p)], the reference implementation that the
    faster ones of the package agree with:
    [crc = ^crc; for _, v := range p { crc = tab[byte(crc)^v] ^ (crc >> 8) };
    return ^crc] on [uint32]. *)
Definition update_byte (crc v : Z) : Z :=
  Z.lxor (table IEEE (Z.lxor (Z.land crc 0xff) v)) (Z.shiftr crc 8).

Definition not32 (x : Z) : Z := Z.lxor x 0xffffffff.

Definition update (crc : Z) (p : list Z) : Z :=
  not32 (fold_left update_byte p (not32 crc)).

(** [crc32.ChecksumIEEE(data)] *)
Definition ChecksumIEEE (data : list Z) : Z := update 0 data.

End crc32.

(** [[]byte(s)]: the bytes of a Go string, each in [0, 256). *)
Definition bytes_of_string (s : string) : list Z :=
  List.map (fun c => Z.of_N (N_of_ascii c)) (list_ascii_of_string s).

(** ** pglocker.go: identifier mapper and error classifier *)

(** [func lockID(lockName string) uint32] *)
Definition lockID (lockName : string) : Z :=
  crc32.ChecksumIEEE (bytes_of_string lockName).

(** [var ignoreableErrs] *)
Definition ignoreableErrs : list error :=
  [Some DeadlineExceeded; Some Canceled; Some ErrConnDone].

(** [func ignoreErr(err error) error]: the range loop over a list of
    candidates, returning [nil] at the first one equal to [err]. *)
Fixpoint ignoreErr_range (candidates : list error) (err : error) : error :=
  match candidates with
  | [] => err
  | ignoreMe :: rest =>
      if GoErr.eqb err ignoreMe then nil else ignoreErr_range rest err
  end.

Definition ignoreErr (err : error) : error :=
  ignoreErr_range ignoreableErrs err.

(** ** context *)

(** A [context.Context] by construction: the root, a child with a cancel
    function (named by [id]), or a child with a deadline (absolute time in
    nanoseconds). *)
Inductive context : Type :=
| Background                                  (* context.Background() *)
| WithCancel (parent : context) (id : nat)    (* context.WithCancel(parent) *)
| WithDeadline (parent : context) (d : Z).    (* context.WithDeadline(parent, d) *)

(** [ctx.Err()] at time [now], [cancelled] telling which cancel functions
    have been called: a child is done as soon as its parent is.  Two things
    about the result are meant: whether it is nil, and that it is one of
    the two errors of package [context].  Which of the two a context reports
    that is both cancelled and past a deadline is not: Go keeps the reason
    that came first, this function looks at the parent first. *)
Fixpoint ctx_Err (now : Z) (cancelled : nat -> bool) (ctx : context) : error :=
  match ctx with
  | Background => nil
  | WithCancel parent id =>
      match ctx_Err now cancelled parent with
      | Some e => Some e
      | None => if cancelled id then Some Canceled else nil
      end
  | WithDeadline parent d =>
      match ctx_Err now cancelled parent with
      | Some e => Some e
      | None => if d <=? now then Some DeadlineExceeded else nil
      end
  end.

(** [ctx.Deadline()], [None] when no deadline is set. *)
Fixpoint ctx_Deadline (ctx : context) : option Z :=
  match ctx with
  | Background => None
  | WithCancel parent _ => ctx_Deadline parent
  | WithDeadline parent d =>
      match ctx_Deadline parent with
      | Some dp => Some (Z.min dp d)
      | None => Some d
      end
  end.

#[global] Instance context_eq_dec : EqDecision context.
Proof. solve_decision. Defined.

(** [ctx] was obtained from [ancestor] by one or more [With...] calls. *)
Fixpoint derived_from (ctx ancestor : context) : bool :=
  match ctx with
  | Background => false
  | WithCancel parent _ | WithDeadline parent _ =>
      bool_decide (parent = ancestor) || derived_from parent ancestor
  end.

(** ** The store: clock, sessions, channels, goroutines, request log *)

(** [time.Duration], nanoseconds. *)
Definition Duration : Type := Z.
Definition Second : Duration := 1000000000.

(** [*sql.Conn] and [chan error] values are addresses into the store. *)
Definition Conn : Type := nat.
Definition ChanRef : Type := nat.

(** A channel of [error]: capacity, buffered values (oldest first), closed. *)
Record Chan : Type := mkChan {
  cap : nat;
  buf : list error;
  closed : bool
}.

(** [type lockOpts struct] *)
Record lockOpts : Type := mkOpts {
  timeout : Duration;
  pingInterval : Duration
}.

(** The variables captured by the function literal of the [go] statement in
    [Lock]. *)
Record Closure : Type := mkClosure {
  g_ctx : context;
  g_conn : Conn;
  g_lockName : string;
  g_opts : lockOpts;
  g_errs : ChanRef
}.

(** What the program does to the outside, in order. *)
Inductive Event : Type :=
| DBConn (ctx : context)                                             (* db.Conn(ctx) *)
| QueryRowScan (ctx : context) (conn : Conn) (query : string) (arg : Z)
                                              (* conn.QueryRowContext(ctx, query, arg).Scan(&ok) *)
| ExecContext (ctx : context) (conn : Conn) (query : string) (arg : Z)
| PingContext (ctx : context) (conn : Conn)
| ConnClose (conn : Conn)
| CancelFunc (ctx : context)                  (* the cancel function of a derived context *)
| MakeChan (ch : ChanRef) (size : nat)
| GoStmt (g : Closure)
| NewTicker (d : Duration)
| TickerStop
| ChanSend (ch : ChanRef) (v : error)
| ChanRecv (ch : ChanRef) (v : error) (ok : bool)
| ChanClose (ch : ChanRef).

Record Store : Type := mkStore {
  now : Z;                  (* time.Now() *)
  cancelled : list nat;     (* cancel functions called so far *)
  conns : list bool;        (* sessions checked out so far; [true] = not closed *)
  chans : list Chan;
  gos : list Closure;       (* goroutines started *)
  log : list Event
}.

(** [*sql.DB] with the server and network behind it: what each request is
    answered and how long it takes.  [QueryRow_reply] is the scanned
    boolean and the error of [Scan]. *)
Record DB : Type := mkDB {
  Conn_reply : context -> error;
  QueryRow_reply : context -> Conn -> string -> Z -> bool * error;
  Exec_reply : context -> Conn -> string -> Z -> error;
  Close_reply : Conn -> error;
  took : Event -> Duration
}.

(** ** The monad of sequential code *)

Definition M (A : Type) : Type := Store -> A * Store.

#[global] Instance M_ret : MRet M := fun A a st => (a, st).
#[global] Instance M_bind : MBind M :=
  fun A B f m st => let '(a, st') := m st in f a st'.

Definition emit (e : Event) : M unit :=
  fun st => (tt, mkStore (now st) (cancelled st) (conns st) (chans st) (gos st) (log st ++ [e])).

Definition sleep (d : Duration) : M unit :=
  fun st => (tt, mkStore (now st + d) (cancelled st) (conns st) (chans st) (gos st) (log st)).

Definition time_Now : M Z := fun st => (now st, st).

Definition set_conns (f : list bool -> list bool) : M unit :=
  fun st => (tt, mkStore (now st) (cancelled st) (f (conns st)) (chans st) (gos st) (log st)).

Definition set_chans (f : list Chan -> list Chan) : M unit :=
  fun st => (tt, mkStore (now st) (cancelled st) (conns st) (f (chans st)) (gos st) (log st)).

Definition get_chans : M (list Chan) := fun st => (chans st, st).
Definition get_conns : M (list bool) := fun st => (conns st, st).

(** [go func() {...}()] *)
Definition go (g : Closure) : M unit :=
  fun st => (tt, mkStore (now st) (cancelled st) (conns st) (chans st) (gos st ++ [g])
                         (log st ++ [GoStmt g])).

(** [make(chan error, size)] *)
Definition make_chan (size : nat) : M ChanRef :=
  cs ← get_chans;
  let ch := length cs in
  _ ← set_chans (fun cs => cs ++ [mkChan size [] false]);
  _ ← emit (MakeChan ch size);
  mret ch.

(** [context.WithTimeout(parent, timeout)] is
    [WithDeadline(parent, time.Now().Add(timeout))]. *)
Definition context_WithTimeout (parent : context) (timeout : Duration) : M context :=
  t ← time_Now;
  mret (WithDeadline parent (t + timeout)).

Section Requests.
Variable db : DB.

(** A request to the database: logged, answered, and the clock moved by
    the time it took.  The answer does not touch the table of sessions: a
    session is closed by [conn.Close] only, and the pool discarding a
    session of its own accord after a driver error is no part of this
    model. *)
Definition request {A} (e : Event) (reply : A) : M A :=
  _ ← emit e;
  _ ← sleep (took db e);
  mret reply.

(** [db.Conn(ctx)]: a session of its own, or an error. *)
Definition db_Conn (ctx : context) : M (Conn + val) :=
  r ← request (DBConn ctx) (Conn_reply db ctx);
  match r with
  | Some err => mret (inr err)
  | None =>
      cs ← get_conns;
      _ ← set_conns (fun cs => cs ++ [true]);
      mret (inl (length cs))
  end.

Definition conn_QueryRowScan (ctx : context) (conn : Conn) (query : string) (arg : Z)
  : M (bool * error) :=
  request (QueryRowScan ctx conn query arg) (QueryRow_reply db ctx conn query arg).

Definition conn_ExecContext (ctx : context) (conn : Conn) (query : string) (arg : Z)
  : M error :=
  request (ExecContext ctx conn query arg) (Exec_reply db ctx conn query arg).

(** [conn.Close()]: the session goes back to the pool. *)
Definition conn_Close (conn : Conn) : M error :=
  r ← request (ConnClose conn) (Close_reply db conn);
  _ ← set_conns (fun cs => <[conn := false]> cs);
  mret r.

(** ** pglocker.go: acquisition and release *)

(** [func tryLock(ctx, conn, lockName) (bool, error)] *)
Definition tryLock (ctx : context) (conn : Conn) (lockName : string) : M (bool * error) :=
  '(ok, err) ← conn_QueryRowScan ctx conn "SELECT pg_try_advisory_lock($1)" (lockID lockName);
  if notnil err then mret (false, err)
  else mret (ok, nil).

(** [func waitForLock(ctx, conn, lockName, timeout) (bool, error)];
    the deferred [cancel()] runs when the function returns. *)
Definition waitForLock (ctx : context) (conn : Conn) (lockName : string)
    (timeout : Duration) : M (bool * error) :=
  ctx' ← context_WithTimeout ctx timeout;
  err ← conn_ExecContext ctx' conn "SELECT pg_advisory_lock($1)" (lockID lockName);
  _ ← emit (CancelFunc ctx');
  if notnil err then mret (false, err)
  else mret (true, nil).

(** [func getLock(ctx, conn, lockName, timeout) (bool, error)] *)
Definition getLock (ctx : context) (conn : Conn) (lockName : string)
    (timeout : Duration) : M (bool * error) :=
  if timeout =? 0 then tryLock ctx conn lockName
  else waitForLock ctx conn lockName timeout.

(** [func releaseLock(conn, lockName) error] *)
Definition releaseLock (conn : Conn) (lockName : string) : M error :=
  let ctx := Background in
  conn_ExecContext ctx conn "SELECT pg_advisory_unlock($1)" (lockID lockName).

End Requests.

(** ** Channel operations *)

Inductive SendResult : Type :=
| Sent
| SendBlocks     (* buffer full: the sender stays parked at the send *)
| SendPanics.    (* send on a closed channel *)

(** [ch <- v] with no receiver parked on [ch]: the value goes to the buffer
    when there is room.  (Handing a value to a parked receiver is the same
    as buffering it and letting the receiver take it.) *)
Definition chan_send (ch : ChanRef) (v : error) : M SendResult :=
  cs ← get_chans;
  match cs !! ch with
  | None => mret SendBlocks
  | Some c =>
      if closed c then mret SendPanics
      else if (length (buf c) <? cap c)%nat then
        _ ← set_chans (fun cs => <[ch := mkChan (cap c) (buf c ++ [v]) false]> cs);
        _ ← emit (ChanSend ch v);
        mret Sent
      else mret SendBlocks
  end.

(** [v, ok := <-ch]; [None] when the receive blocks. *)
Definition chan_recv (ch : ChanRef) : M (option (error * bool)) :=
  cs ← get_chans;
  match cs !! ch with
  | None => mret None
  | Some c =>
      match buf c with
      | v :: rest =>
          _ ← set_chans (fun cs => <[ch := mkChan (cap c) rest (closed c)]> cs);
          _ ← emit (ChanRecv ch v true);
          mret (Some (v, true))
      | [] =>
          if closed c then
            _ ← emit (ChanRecv ch nil false);
            mret (Some (nil, false))
          else mret None
      end
  end.

(** [close(ch)]; [false] when it panics (closed twice). *)
Definition chan_close (ch : ChanRef) : M bool :=
  cs ← get_chans;
  match cs !! ch with
  | None => mret false
  | Some c =>
      if closed c then mret false
      else
        _ ← set_chans (fun cs => <[ch := mkChan (cap c) (buf c) true]> cs);
        _ ← emit (ChanClose ch);
        mret true
  end.

(** [ctx.Err()] in the current store. *)
Definition ctx_Err_now (ctx : context) : M error :=
  fun st => (ctx_Err (now st) (fun id => bool_decide (id ∈ cancelled st)) ctx, st).

(** Calling the cancel function [id]. *)
Definition call_cancel (id : nat) : M unit :=
  fun st => (tt, mkStore (now st) (id :: cancelled st) (conns st) (chans st) (gos st) (log st)).

(** ** pglocker.go: options and the facade *)

Definition defaultPingInterval : Duration := 10 * Second.

(** [type LockOption]: a function that updates the [lockOpts] it is given
    a pointer to. *)
Definition LockOption : Type := lockOpts -> lockOpts.

Definition WithTimeout (t : Duration) : LockOption :=
  fun o => mkOpts t (pingInterval o).

Definition WithPingInterval (p : Duration) : LockOption :=
  fun o => mkOpts (timeout o) p.

(** [opts := &lockOpts{pingInterval: defaultPingInterval};
    for _, o := range options { o(opts) }] *)
Definition apply_options (options : list LockOption) : lockOpts :=
  fold_left (fun opts o => o opts) options (mkOpts 0 defaultPingInterval).

Definition unlock_query : string := "SELECT pg_advisory_unlock($1)".

Section Lock.
Variable db : DB.

(** [func Lock(ctx, db, lockName, options...) (<-chan error, error)] up to
    and including the [go] statement; the body of the function literal
    is [goroutine_step] below. *)
Definition Lock (ctx : context) (lockName : string) (options : list LockOption)
  : M (option ChanRef * error) :=
  let opts := apply_options options in
  r ← db_Conn db ctx;
  match r with
  | inr err => mret (None, Some err)
  | inl conn =>
      '(ok, err) ← getLock db ctx conn lockName (timeout opts);
      if notnil err || negb ok then
        _ ← conn_Close db conn;
        let err := Errorf_v "could not obtain lock: " err in
        mret (None, Some err)
      else
        errs ← make_chan 1;
        _ ← go (mkClosure ctx conn lockName opts errs);
        mret (Some errs, nil)
  end.

(** *** The goroutine started by [Lock] *)

(** Program points of the function literal (lines of pglocker.go). *)
Inductive PC : Type :=
| L62                               (* entered; [close(errs)] is deferred *)
| L65                               (* in the loop with [lErr == nil], at the [select] *)
| L73 (lErr : error)                (* the loop is left *)
| L77 (lErr : error)                (* at the send *)
| Deferred_Stop (panicking : bool)  (* deferred [ticker.Stop()] *)
| Deferred_close (panicking : bool) (* deferred [close(errs)] *)
| Returned
| Panicked.

(** Which case the [select] of line 66 takes when the goroutine runs: the
    context case (possible only once [ctx] is done) or a tick, with the
    answer the following ping gets. *)
Inductive Ready : Type :=
| PickDone
| PickTick (pong : error).

(** [conn.PingContext(ctx)] *)
Definition conn_PingContext (ctx : context) (conn : Conn) (pong : error) : M error :=
  request db (PingContext ctx conn) pong.

(** One atomic step of the goroutine. *)
Definition goroutine_step (g : Closure) (r : Ready) (pc : PC) : M PC :=
  match pc with
  | L62 =>
      (* ticker := time.NewTicker(opts.pingInterval): panics unless positive *)
      if pingInterval (g_opts g) <=? 0 then mret (Deferred_close true)
      else
        _ ← emit (NewTicker (pingInterval (g_opts g)));
        (* defer ticker.Stop(); var lErr error *)
        mret L65
  | L65 =>
      match r with
      | PickDone =>
          (* case <-ctx.Done(): lErr = ctx.Err() *)
          lErr ← ctx_Err_now (g_ctx g);
          if notnil lErr then mret (L73 lErr) else mret L65
      | PickTick pong =>
          (* case <-ticker.C: lErr = conn.PingContext(ctx) *)
          lErr ← conn_PingContext (g_ctx g) (g_conn g) pong;
          if notnil lErr then mret (L73 lErr) else mret L65
      end
  | L73 lErr =>
      rel ← releaseLock db (g_conn g) (g_lockName g);
      let releaseErr := ignoreErr rel in
      let lErr := if notnil releaseErr then releaseErr else lErr in
      mret (L77 lErr)
  | L77 lErr =>
      s ← chan_send (g_errs g) (ignoreErr lErr);
      match s with
      | Sent => mret (Deferred_Stop false)
      | SendBlocks => mret (L77 lErr)
      | SendPanics => mret (Deferred_Stop true)
      end
  | Deferred_Stop panicking =>
      _ ← emit TickerStop;
      mret (Deferred_close panicking)
  | Deferred_close panicking =>
      ok ← chan_close (g_errs g);
      if ok && negb panicking then mret Returned else mret Panicked
  | Returned => mret Returned
  | Panicked => mret Panicked
  end.

(** What can happen next in the system made of the goroutine, the holder
    of the returned channel and the owners of the contexts.  [Lock] returns
    the channel receive-only: its holder can neither send on it nor close
    it. *)
Inductive Move : Type :=
| Run (r : Ready)        (* the goroutine takes a step *)
| Recv                   (* the holder of the channel executes [<-errs] *)
| Cancel (id : nat)      (* a cancel function is called *)
| Elapse (d : Duration). (* time passes *)

Definition sys_step (g : Closure) (m : Move) (s : PC * Store) : PC * Store :=
  match m with
  | Run r => goroutine_step g r (fst s) (snd s)
  | Recv => (fst s, snd (chan_recv (g_errs g) (snd s)))
  | Cancel id => (fst s, snd (call_cancel id (snd s)))
  | Elapse d => (fst s, snd (sleep d (snd s)))
  end.

(** The system under a schedule. *)
Definition run (g : Closure) (ms : list Move) (s : PC * Store) : PC * Store :=
  fold_left (fun s m => sys_step g m s) ms s.

End Lock.

(** ** Observations on the log *)

(** The requests and channel writes in a log: everything but ticker
    bookkeeping, pings and receives. *)
Definition is_action (e : Event) : bool :=
  match e with
  | NewTicker _ | TickerStop | PingContext _ _ | ChanRecv _ _ _ => false
  | _ => true
  end.

Definition actions (l : list Event) : list Event := List.filter is_action l.

(** The values received from [ch], in order. *)
Definition delivered (ch : ChanRef) (l : list Event) : list error :=
  flat_map (fun e => match e with
                     | ChanRecv c v true => if (c =? ch)%nat then [v] else []
                     | _ => []
                     end) l.

(** The release request of a goroutine. *)
Definition unlock_event (g : Closure) : Event :=
  ExecContext Background (g_conn g) unlock_query (lockID (g_lockName g)).

(** Benign errors: the ones the classifier suppresses. *)
Definition benign (e : error) : Prop :=
  e = Some DeadlineExceeded \/ e = Some Canceled \/ e = Some ErrConnDone.

(** ** Vocabulary of the statements *)

(** Values of Go type [uint32]. *)
Definition uint32 (x : Z) : Prop := 0 <= x < 2 ^ 32.

(** The queries of [tryLock] and [waitForLock]. *)
Definition try_query : string := "SELECT pg_try_advisory_lock($1)".
Definition lock_query : string := "SELECT pg_advisory_lock($1)".

(** The loop of lines 65 to 72 is over (or was never entered). *)
Definition loop_left (pc : PC) : bool :=
  match pc with
  | L62 | L65 => false
  | _ => true
  end.

(** Program points of a goroutine whose [time.NewTicker] panicked. *)
Definition never_looped (pc : PC) : Prop :=
  pc = L62 \/ pc = Deferred_close true \/ pc = Panicked.

(** The channel as [make(chan error, 1)] leaves it. *)
Definition fresh_chan : Chan := mkChan 1 [] false.

Section Protocol.
Variable db : DB.
Variable g : Closure.

(** The answer to the release request of [g]. *)
Definition release_reply : error :=
  Exec_reply db Background (g_conn g) unlock_query (lockID (g_lockName g)).

(** [lErr] after lines 73 to 76, and the value line 77 sends. *)
Definition superseded (lErr : error) : error :=
  if notnil (ignoreErr release_reply) then ignoreErr release_reply else lErr.

Definition reported (lErr : error) : error := ignoreErr (superseded lErr).

(** What holds of the events [new] logged since the goroutine was started
    and of its channel [c], at each program point.  [Q] is what is known
    of the terminal cause. *)
Definition at_pc (Q : error -> Prop) (pc : PC) (new : list Event) (c : Chan) : Prop :=
  match pc with
  | L62 | L65 =>
      (forall l, l <> nil -> Q l) /\
      actions new = [] /\ c = fresh_chan /\ delivered (g_errs g) new = []
  | L73 l =>
      Q l /\ actions new = [] /\ c = fresh_chan /\ delivered (g_errs g) new = []
  | L77 e =>
      (exists l, Q l /\ e = superseded l) /\
      actions new = [unlock_event g] /\ c = fresh_chan /\
      delivered (g_errs g) new = []
  | Deferred_Stop false | Deferred_close false =>
      exists l, Q l /\
        actions new = [unlock_event g; ChanSend (g_errs g) (reported l)] /\
        cap c = 1%nat /\ closed c = false /\
        delivered (g_errs g) new ++ buf c = [reported l]
  | Returned =>
      exists l, Q l /\
        actions new = [unlock_event g; ChanSend (g_errs g) (reported l);
                       ChanClose (g_errs g)] /\
        cap c = 1%nat /\ closed c = true /\
        delivered (g_errs g) new ++ buf c = [reported l]
  | Deferred_Stop true | Deferred_close true | Panicked => False
  end.

Definition Inv (Q : error -> Prop) (base : Store) (s : PC * Store) : Prop :=
  exists new c,
    log (snd s) = log base ++ new /\
    conns (snd s) = conns base /\
    chans (snd s) !! g_errs g = Some c /\
    at_pc Q (fst s) new c.

(** Moves of the goroutine in a schedule. *)
Definition runs (ms : list Move) : nat :=
  length (List.filter (fun m => match m with Run _ => true | _ => false end) ms).

(** Steps the goroutine has left once the loop is over. *)
Definition steps_left (pc : PC) : nat :=
  match pc with
  | L73 _ => 4
  | L77 _ => 3
  | Deferred_Stop _ => 2
  | Deferred_close _ => 1
  | _ => 0
  end.

End Protocol.

(** ** Sample databases and stores *)

Definition store0 : Store := mkStore 0 [] [] [] [] [].

(** Every request succeeds after a millisecond; [granted] answers the
    try-claim. *)
Definition sample_db (granted : bool) : DB :=
  mkDB (fun _ => nil) (fun _ _ _ _ => (granted, nil)) (fun _ _ _ _ => nil)
       (fun _ => nil) (fun _ => 1000000).

(** A caller-made cancellable context. *)
Definition sample_ctx : context := WithCancel Background 0.

(** The lock "A" is granted with default options. *)
Definition sample_st1 : Store := snd (Lock (sample_db true) sample_ctx "A" [] store0).

Definition sample_g : Closure :=
  mkClosure sample_ctx 0%nat "A" (apply_options []) 0%nat.

(** The ticker is started, a ping succeeds, the caller cancels, the
    goroutine notices. *)
Definition sample_hold : list Move :=
  [Run PickDone; Run (PickTick nil); Cancel 0; Run PickDone].

(** The goroutine runs on; nobody receives. *)
Definition sample_finish : list Move :=
  [Run PickDone; Run PickDone; Run PickDone; Run PickDone].

(** A database whose release request fails. *)
Definition broken_release_db : DB :=
  mkDB (fun _ => nil) (fun _ _ _ _ => (true, nil))
       (fun _ _ q _ => if String.eqb q unlock_query
                       then Some (ErrorString "driver: bad connection") else nil)
       (fun _ => nil) (fun _ => 1000000).

Definition broken_st1 : Store := snd (Lock broken_release_db sample_ctx "A" [] store0).

(** ** Further vocabulary *)

(** An option that leaves the timeout as it finds it, as [WithPingInterval]
    does. *)
Definition keeps_timeout (o : LockOption) : Prop :=
  forall opts, timeout (o opts) = timeout opts.

(** The store when [db.Conn(ctx)] has answered. *)
Definition after_Conn (db : DB) (ctx : context) (st : Store) : Store :=
  snd (db_Conn db ctx st).

(** The text of the error [Lock] returns when the acquisition fails with
    [cause]. *)
Definition could_not_obtain (cause : error) : val :=
  ErrorString (String.append "could not obtain lock: "
                 match cause with
                 | None => "<nil>"
                 | Some e => Error e
                 end).

(** A pool that is closed: no session can be checked out. *)
Definition closed_db : DB :=
  mkDB (fun _ => Some (ErrorString "sql: database is closed"))
       (fun _ _ _ _ => (true, nil)) (fun _ _ _ _ => nil)
       (fun _ => nil) (fun _ => 0).

(** The lock is held elsewhere for longer than any wait: the blocking claim
    ends with the deadline of its context. *)
Definition waiting_db : DB :=
  mkDB (fun _ => nil) (fun _ _ _ _ => (false, nil))
       (fun _ _ _ _ => Some DeadlineExceeded) (fun _ => nil)
       (fun _ => 1000000).

(** Steps a goroutine whose ticker could not be made has left before it has
    panicked. *)
Definition panic_steps (pc : PC) : nat :=
  match pc with
  | L62 => 2
  | Deferred_close _ => 1
  | _ => 0
  end.

(** Events that are neither a request to the database nor a send. *)
Definition close_or_recv (e : Event) : Prop :=
  (exists ch, e = ChanClose ch) \/ (exists ch v ok, e = ChanRecv ch v ok).

(** ** The first version of the package (the second source file) *)

(** The earlier [Lock]: a single timeout argument, always a blocking claim,
    an unbuffered channel, and a goroutine that waits for the context,
    releases, sends the error of the release and closes the channel. *)
Module V0.

(** [func getLock(ctx, conn, lockID, timeout) error]; the deferred
    [cancel()] runs when the function returns. *)
Definition getLock (db : DB) (ctx : context) (conn : Conn) (lockID : Z)
    (timeout : Duration) : M error :=
  ctx' ← context_WithTimeout ctx timeout;
  err ← conn_ExecContext db ctx' conn "SELECT pg_advisory_lock($1)" lockID;
  _ ← emit (CancelFunc ctx');
  mret err.

(** [func releaseLock(conn, lockID) error] *)
Definition releaseLock (db : DB) (conn : Conn) (lockID : Z) : M error :=
  let ctx := Background in
  conn_ExecContext db ctx conn "SELECT pg_advisory_unlock($1)" lockID.

(** [func Lock(ctx, db, lockName, getLockTimeout) (<-chan error, error)] up
    to and including the [go] statement.  The function literal captures
    [ctx], [conn], [lockID] and [errs]; the closure records the name the
    identifier is computed from, and its options field, which has no
    counterpart here, holds the timeout. *)
Definition Lock (db : DB) (ctx : context) (lockName : string)
    (getLockTimeout : Duration) : M (option ChanRef * error) :=
  let lockID := crc32.ChecksumIEEE (bytes_of_string lockName) in
  r ← db_Conn db ctx;
  match r with
  | inr err => mret (None, Some err)
  | inl conn =>
      err ← getLock db ctx conn lockID getLockTimeout;
      if notnil err then mret (None, err)
      else
        errs ← make_chan 0;
        _ ← go (mkClosure ctx conn lockName (mkOpts getLockTimeout 0) errs);
        mret (Some errs, nil)
  end.

(** Program points of the function literal (lines of the file). *)
Inductive PC : Type :=
| L25                 (* at [<-ctx.Done()] *)
| L26                 (* the context is done; about to call [releaseLock] *)
| L26_send (v : error) (* [releaseLock] has returned [v]; at the send *)
| L27                 (* at [close(errs)] *)
| Returned
| Panicked.

(** One step of the goroutine on its own.  At the send it can only go on
    if the channel takes the value, which an unbuffered channel without a
    receiver does not. *)
Definition goroutine_step (db : DB) (g : Closure) (pc : PC) : M PC :=
  match pc with
  | L25 =>
      e ← ctx_Err_now (g_ctx g);
      if notnil e then mret L26 else mret L25
  | L26 =>
      v ← releaseLock db (g_conn g) (lockID (g_lockName g));
      mret (L26_send v)
  | L26_send v =>
      s ← chan_send (g_errs g) v;
      match s with
      | Sent => mret L27
      | SendBlocks => mret (L26_send v)
      | SendPanics => mret Panicked
      end
  | L27 =>
      ok ← chan_close (g_errs g);
      if (ok : bool) then mret Returned else mret Panicked
  | Returned => mret Returned
  | Panicked => mret Panicked
  end.

(** A sender parked at [ch] meets a receiver: the value goes from one to
    the other, provided the channel is open and holds nothing. *)
Definition chan_rendezvous (ch : ChanRef) (v : error) : M bool :=
  cs ← get_chans;
  match cs !! ch with
  | None => mret false
  | Some c =>
      if closed c then mret false
      else
        match buf c with
        | [] =>
            _ ← emit (ChanSend ch v);
            _ ← emit (ChanRecv ch v true);
            mret true
        | _ :: _ => mret false
        end
  end.

(** [<-errs] by the holder of the channel: it meets the goroutine if that
    is parked at its send, and is an ordinary receive otherwise. *)
Definition recv_step (g : Closure) (pc : PC) : M PC :=
  match pc with
  | L26_send v =>
      met ← chan_rendezvous (g_errs g) v;
      if (met : bool) then mret L27
      else
        _ ← chan_recv (g_errs g);
        mret (L26_send v)
  | _ =>
      _ ← chan_recv (g_errs g);
      mret pc
  end.

Definition sys_step (db : DB) (g : Closure) (m : Move) (s : PC * Store) : PC * Store :=
  match m with
  | Run _ => goroutine_step db g (fst s) (snd s)
  | Recv => recv_step g (fst s) (snd s)
  | Cancel id => (fst s, snd (call_cancel id (snd s)))
  | Elapse d => (fst s, snd (sleep d (snd s)))
  end.

Definition run (db : DB) (g : Closure) (ms : list Move) (s : PC * Store) : PC * Store :=
  fold_left (fun s m => sys_step db g m s) ms s.

(** The channel as [make(chan error)] leaves it. *)
Definition fresh_chan : Chan := mkChan 0 [] false.

(** What holds of the events logged since the goroutine was started and of
    its channel, at each program point. *)
Definition at_pc (db : DB) (g : Closure) (pc : PC) (new : list Event) (c : Chan)
  : Prop :=
  let rel := release_reply db g in
  match pc with
  | L25 | L26 =>
      actions new = [] /\ c = fresh_chan /\ delivered (g_errs g) new = []
  | L26_send v =>
      v = rel /\ actions new = [unlock_event g] /\ c = fresh_chan /\
      delivered (g_errs g) new = []
  | L27 =>
      actions new = [unlock_event g; ChanSend (g_errs g) rel] /\ c = fresh_chan /\
      delivered (g_errs g) new = [rel]
  | Returned =>
      actions new = [unlock_event g; ChanSend (g_errs g) rel; ChanClose (g_errs g)] /\
      c = mkChan 0 [] true /\ delivered (g_errs g) new = [rel]
  | Panicked => False
  end.

Definition Inv (db : DB) (g : Closure) (base : Store) (s : PC * Store) : Prop :=
  exists new c,
    log (snd s) = log base ++ new /\
    conns (snd s) = conns base /\
    chans (snd s) !! g_errs g = Some c /\
    at_pc db g (fst s) new c.

End V0.

(** Receives in a schedule. *)
Definition receives (ms : list Move) : nat :=
  length (List.filter (fun m => match m with Recv => true | _ => false end) ms).

(** The release of the lock "A" finds the session gone. *)
Definition gone_db : DB :=
  mkDB (fun _ => nil) (fun _ _ _ _ => (true, nil))
       (fun _ _ q _ => if String.eqb q unlock_query then Some ErrConnDone else nil)
       (fun _ => nil) (fun _ => 1000000).

Definition v0_st1 : Store := snd (V0.Lock gone_db sample_ctx "A" Second store0).

Definition v0_g : Closure := mkClosure sample_ctx 0%nat "A" (mkOpts Second 0) 0%nat.

(** The lock "A" is granted to a caller that asked for a ping interval of
    zero. *)
Definition zero_st1 : Store :=
  snd (Lock (sample_db true) sample_ctx "A" [WithPingInterval 0] store0).

Definition zero_g : Closure :=
  mkClosure sample_ctx 0%nat "A" (apply_options [WithPingInterval 0]) 0%nat.

(** * Proofs *)

(** ** Equality of error values *)

Lemma val_eqb_eq a b : val_eqb a b = true <-> a = b.
Proof.
  revert b; induction a as [ | | | m | m x IH]; intros [ | | | n | n y]; simpl;
    try (split; [discriminate | congruence]); try tauto.
  - rewrite String.eqb_eq. split; congruence.
  - rewrite andb_true_iff, String.eqb_eq, IH. split.
    + intros [-> ->]. reflexivity.
    + intros H; injection H; auto.
Qed.

Lemma error_eqb_eq a b : GoErr.eqb a b = true <-> a = b.
Proof.
  destruct a as [x|], b as [y|]; simpl; try (split; [discriminate | congruence]).
  - rewrite val_eqb_eq. split; congruence.
  - tauto.
Qed.

Lemma error_eqb_neq a b : GoErr.eqb a b = false <-> a <> b.
Proof.
  rewrite <- error_eqb_eq. destruct (GoErr.eqb a b); split; congruence.
Qed.

Lemma notnil_true e : notnil e = true <-> e <> nil.
Proof. destruct e; unfold nil; simpl; split; congruence. Qed.

(** ** The error classifier *)

Lemma ignoreErr_range_nil candidates err :
  ignoreErr_range candidates err = nil <-> err = nil \/ In err candidates.
Proof.
  induction candidates as [|c cs IH]; simpl.
  - tauto.
  - destruct (GoErr.eqb err c) eqn:E.
    + apply error_eqb_eq in E. subst. tauto.
    + apply error_eqb_neq in E. rewrite IH. intuition congruence.
Qed.

Lemma ignoreErr_range_keep candidates err :
  ~ In err candidates -> ignoreErr_range candidates err = err.
Proof.
  induction candidates as [|c cs IH]; simpl; intros H.
  - reflexivity.
  - destruct (GoErr.eqb err c) eqn:E.
    + apply error_eqb_eq in E. subst. tauto.
    + apply IH. tauto.
Qed.

Lemma benign_In e : benign e <-> In e ignoreableErrs.
Proof. unfold benign, ignoreableErrs; simpl. intuition congruence. Qed.

Lemma benign_notnil e : benign e -> e <> nil.
Proof. unfold benign, nil. intuition congruence. Qed.

Lemma ignoreErr_benign e : benign e -> ignoreErr e = nil.
Proof. intros H. apply ignoreErr_range_nil. right. apply benign_In, H. Qed.

Lemma ignoreErr_other e : ~ benign e -> ignoreErr e = e.
Proof. intros H. apply ignoreErr_range_keep. rewrite <- benign_In. exact H. Qed.

Lemma ignoreErr_nil_iff e : ignoreErr e = nil <-> e = nil \/ benign e.
Proof. unfold ignoreErr. rewrite ignoreErr_range_nil, benign_In. reflexivity. Qed.

Lemma benign_dec e : benign e \/ ~ benign e.
Proof.
  destruct e as [[ | | | m | m x]|]; unfold benign;
    first [ now (left; auto) | right; intuition congruence ].
Qed.

Lemma ignoreErr_not_benign e : ~ benign (ignoreErr e).
Proof.
  destruct (benign_dec e) as [H|H].
  - rewrite ignoreErr_benign by exact H. intros B. now apply benign_notnil in B.
  - now rewrite ignoreErr_other.
Qed.

(** C3.  The classifier maps context deadline exceeded, context
    cancellation and [sql.ErrConnDone] to [nil]; every other error value is
    returned as it is, so nothing but these three (and [nil] itself) comes
    out as [nil]. *)
Theorem ignoreErr_classifier (e : error) :
  ignoreErr (Some DeadlineExceeded) = nil /\
  ignoreErr (Some Canceled) = nil /\
  ignoreErr (Some ErrConnDone) = nil /\
  (~ benign e -> ignoreErr e = e) /\
  (ignoreErr e = nil <-> e = nil \/ benign e).
Proof.
  repeat split; try reflexivity.
  - apply ignoreErr_other.
  - apply ignoreErr_nil_iff.
  - apply ignoreErr_nil_iff.
Qed.

(** A cancellation wrapped by another error is not the sentinel: it is
    surfaced. *)
Lemma ignoreErr_classifier_witness :
  ~ benign (Some (Wrapped "query failed" Canceled)) /\
  ignoreErr (Some (Wrapped "query failed" Canceled))
  = Some (Wrapped "query failed" Canceled).
Proof.
  assert (H : ~ benign (Some (Wrapped "query failed" Canceled)))
    by (unfold benign; intuition discriminate).
  split; [exact H|].
  exact (proj1 (proj2 (proj2 (proj2
           (ignoreErr_classifier (Some (Wrapped "query failed" Canceled)))))) H).
Defined.

(** ** The identifier mapper is a 32-bit value *)


Lemma lxor_uint32 a b : uint32 a -> uint32 b -> uint32 (Z.lxor a b).
Proof.
  unfold uint32. intros [Ha Ha'] [Hb Hb'].
  assert (H0 : 0 <= Z.lxor a b) by (apply Z.lxor_nonneg; tauto).
  split; [exact H0|].
  destruct (Z.eq_dec (Z.lxor a b) 0) as [E|E]; [rewrite E; reflexivity|].
  apply Z.log2_lt_pow2; [lia|].
  pose proof (Z.log2_lxor a b Ha Hb) as L.
  assert (La : Z.log2 a < 32).
  { destruct (Z.eq_dec a 0) as [->|]; [simpl; lia|]. apply Z.log2_lt_pow2; lia. }
  assert (Lb : Z.log2 b < 32).
  { destruct (Z.eq_dec b 0) as [->|]; [simpl; lia|]. apply Z.log2_lt_pow2; lia. }
  lia.
Qed.

Lemma shiftr_uint32 a k : 0 <= k -> uint32 a -> uint32 (Z.shiftr a k).
Proof.
  unfold uint32. intros Hk [Ha Ha'].
  rewrite Z.shiftr_div_pow2 by exact Hk.
  assert (P : 0 < 2 ^ k) by (apply Z.pow_pos_nonneg; lia).
  split.
  - apply Z.div_pos; lia.
  - apply Z.le_lt_trans with a; [|exact Ha'].
    apply Z.div_le_upper_bound; [exact P|]. nia.
Qed.

Lemma shift1_uint32 crc : uint32 crc -> uint32 (crc32.shift1 crc32.IEEE crc).
Proof.
  intros H. unfold crc32.shift1.
  assert (uint32 (Z.shiftr crc 1)) by (apply shiftr_uint32; [lia|exact H]).
  destruct (Z.testbit crc 0); [|assumption].
  apply lxor_uint32; [assumption|]. unfold uint32, crc32.IEEE. lia.
Qed.

Lemma table_uint32 i : uint32 i -> uint32 (crc32.table crc32.IEEE i).
Proof.
  intros H. unfold crc32.table.
  generalize 8%nat. intros n. induction n as [|n IH]; simpl.
  - exact H.
  - apply shift1_uint32, IH.
Qed.

Lemma land_byte_uint32 crc : 0 <= crc -> uint32 (Z.land crc 0xff).
Proof.
  intros H. unfold uint32.
  change 0xff with (Z.ones 8). rewrite Z.land_ones by lia.
  pose proof (Z.mod_pos_bound crc (2 ^ 8) ltac:(lia)). lia.
Qed.

Lemma update_byte_uint32 crc v :
  uint32 crc -> 0 <= v < 256 -> uint32 (crc32.update_byte crc v).
Proof.
  intros Hc Hv. unfold crc32.update_byte.
  apply lxor_uint32.
  - apply table_uint32, lxor_uint32.
    + apply land_byte_uint32, Hc.
    + unfold uint32. lia.
  - apply shiftr_uint32; [lia|exact Hc].
Qed.

Lemma not32_uint32 x : uint32 x -> uint32 (crc32.not32 x).
Proof.
  intros H. apply lxor_uint32; [exact H|]. unfold uint32. lia.
Qed.

Lemma fold_update_uint32 p crc :
  Forall (fun v => 0 <= v < 256) p -> uint32 crc ->
  uint32 (fold_left crc32.update_byte p crc).
Proof.
  intros Hp. revert crc.
  induction Hp as [|v p Hv _ IH]; simpl; intros crc Hc.
  - exact Hc.
  - apply IH, update_byte_uint32; assumption.
Qed.

Lemma bytes_of_string_bytes s : Forall (fun v => 0 <= v < 256) (bytes_of_string s).
Proof.
  unfold bytes_of_string.
  induction (list_ascii_of_string s) as [|c cs IH]; simpl; constructor.
  - pose proof (N_ascii_bounded c). lia.
  - exact IH.
Qed.

Lemma lockID_uint32 lockName : uint32 (lockID lockName).
Proof.
  unfold lockID, crc32.ChecksumIEEE, crc32.update.
  apply not32_uint32, fold_update_uint32.
  - apply bytes_of_string_bytes.
  - apply not32_uint32. unfold uint32. lia.
Qed.

(** ** Running the requests *)

Ltac run_M :=
  unfold Lock, getLock, tryLock, waitForLock, releaseLock, conn_PingContext,
    conn_QueryRowScan, conn_ExecContext, conn_Close, db_Conn, request,
    context_WithTimeout, make_chan, go, emit, sleep, time_Now, set_conns,
    set_chans, get_chans, get_conns, ctx_Err_now, call_cancel,
    chan_send, chan_recv, chan_close,
    mbind, M_bind, mret, M_ret; simpl.

Lemma tryLock_log db ctx conn lockName st :
  log (snd (tryLock db ctx conn lockName st))
  = log st ++ [QueryRowScan ctx conn "SELECT pg_try_advisory_lock($1)" (lockID lockName)].
Proof.
  run_M. destruct (QueryRow_reply db _ _ _ _) as [ok err].
  destruct (notnil err); reflexivity.
Qed.

Lemma waitForLock_log db ctx conn lockName timeout st :
  log (snd (waitForLock db ctx conn lockName timeout st))
  = log st ++ [ExecContext (WithDeadline ctx (now st + timeout)) conn
                 "SELECT pg_advisory_lock($1)" (lockID lockName);
               CancelFunc (WithDeadline ctx (now st + timeout))].
Proof.
  run_M. destruct (notnil _); simpl; rewrite <- app_assoc; reflexivity.
Qed.

Lemma releaseLock_log db conn lockName st :
  log (snd (releaseLock db conn lockName st))
  = log st ++ [ExecContext Background conn unlock_query (lockID lockName)].
Proof. reflexivity. Qed.

(** C8.  The identifier mapper is a function of the name alone, defined on
    every name, with values in the unsigned 32-bit range; the try-claim,
    the blocking claim and the release request of a name all carry
    [lockID] of that name as their key. *)
Theorem lockID_shared_key (lockName : string) :
  0 <= lockID lockName < 2 ^ 32 /\
  (forall other : string, other = lockName -> lockID other = lockID lockName) /\
  (forall db ctx conn st,
      log (snd (tryLock db ctx conn lockName st))
      = log st ++ [QueryRowScan ctx conn "SELECT pg_try_advisory_lock($1)"
                     (lockID lockName)]) /\
  (forall db ctx conn timeout st,
      log (snd (waitForLock db ctx conn lockName timeout st))
      = log st ++ [ExecContext (WithDeadline ctx (now st + timeout)) conn
                     "SELECT pg_advisory_lock($1)" (lockID lockName);
                   CancelFunc (WithDeadline ctx (now st + timeout))]) /\
  (forall db conn st,
      log (snd (releaseLock db conn lockName st))
      = log st ++ [ExecContext Background conn "SELECT pg_advisory_unlock($1)"
                     (lockID lockName)]).
Proof.
  split; [apply lockID_uint32|].
  split; [intros other ->; reflexivity|].
  split; [intros; apply tryLock_log|].
  split; [intros; apply waitForLock_log|].
  intros; apply releaseLock_log.
Qed.
Example lockID_check : lockID "123456789" = 0xcbf43926.
Proof. vm_compute. reflexivity. Qed.

Example lockID_empty : lockID "" = 0.
Proof. vm_compute. reflexivity. Qed.

Example lockID_a : lockID "a" = 0xe8b7be43.
Proof. vm_compute. reflexivity. Qed.

(** ** Contexts *)

Lemma ctx_Err_WithDeadline t cancelled parent d :
  ctx_Err t cancelled (WithDeadline parent d) <> nil
  <-> ctx_Err t cancelled parent <> nil \/ d <= t.
Proof.
  simpl. destruct (ctx_Err t cancelled parent) as [e|]; unfold nil.
  - split; [left|]; congruence.
  - destruct (Z.leb_spec d t); split; intros; try congruence; try tauto.
    + intuition (congruence || lia).
Qed.

Lemma derived_from_WithDeadline ctx d : derived_from (WithDeadline ctx d) ctx = true.
Proof. simpl. rewrite bool_decide_eq_true_2 by reflexivity. reflexivity. Qed.

(** ** Acquisition *)


(** C5.  The mode depends on [timeout] being zero only.  With a zero timeout
    one try-claim goes out under the caller's context, and its answer is the
    result.  Otherwise one blocking claim goes out, under a context derived
    from the caller's whose deadline is the time of the call plus [timeout]:
    that context is done exactly when the caller's is done or the deadline
    has come. *)
Theorem getLock_modes db ctx conn lockName timeout st :
  (timeout = 0 ->
   fst (getLock db ctx conn lockName timeout st)
   = (let '(ok, err) := QueryRow_reply db ctx conn try_query (lockID lockName) in
      if notnil err then (false, err) else (ok, nil)) /\
   log (snd (getLock db ctx conn lockName timeout st))
   = log st ++ [QueryRowScan ctx conn try_query (lockID lockName)])
  /\
  (timeout <> 0 ->
   let ctx' := WithDeadline ctx (now st + timeout) in
   fst (getLock db ctx conn lockName timeout st)
   = (let err := Exec_reply db ctx' conn lock_query (lockID lockName) in
      if notnil err then (false, err) else (true, nil)) /\
   log (snd (getLock db ctx conn lockName timeout st))
   = log st ++ [ExecContext ctx' conn lock_query (lockID lockName); CancelFunc ctx'] /\
   derived_from ctx' ctx = true /\
   (forall t cancelled,
       ctx_Err t cancelled ctx' <> nil
       <-> ctx_Err t cancelled ctx <> nil \/ now st + timeout <= t)).
Proof.
  split.
  - intros ->. unfold getLock. simpl. split; [|apply tryLock_log].
    run_M. destruct (QueryRow_reply db _ _ _ _) as [ok err].
    destruct (notnil err); reflexivity.
  - intros Hne. unfold getLock.
    destruct (Z.eqb_spec timeout 0) as [E|_]; [contradiction|].
    split; [|split; [apply waitForLock_log|split]].
    + run_M. destruct (notnil _); reflexivity.
    + apply derived_from_WithDeadline.
    + intros. apply ctx_Err_WithDeadline.
Qed.

(** A try-claim that is refused, and a wait of five seconds that is granted. *)
Lemma getLock_modes_witness :
  (fst (getLock (sample_db false) sample_ctx 0%nat "A" 0 store0) = (false, nil)) /\
  (fst (getLock (sample_db false) sample_ctx 0%nat "A" (5 * Second) store0) = (true, nil) /\
   log (snd (getLock (sample_db false) sample_ctx 0%nat "A" (5 * Second) store0))
   = [ExecContext (WithDeadline sample_ctx 5000000000) 0%nat lock_query (lockID "A");
      CancelFunc (WithDeadline sample_ctx 5000000000)]).
Proof.
  split.
  - exact (proj1 (proj1 (getLock_modes (sample_db false) sample_ctx 0%nat "A" 0 store0)
                    eq_refl)).
  - assert (H : 5 * Second <> 0) by (unfold Second; lia).
    pose proof (proj2 (getLock_modes (sample_db false) sample_ctx 0%nat "A"
                         (5 * Second) store0) H) as [R [L _]].
    split; [exact R | exact L].
Defined.

(** The acquisition functions touch the clock and the log only. *)
Lemma getLock_frame db ctx conn lockName timeout st :
  let st' := snd (getLock db ctx conn lockName timeout st) in
  conns st' = conns st /\ chans st' = chans st /\ gos st' = gos st /\
  cancelled st' = cancelled st.
Proof.
  unfold getLock. destruct (timeout =? 0); run_M.
  - destruct (QueryRow_reply db _ _ _ _) as [ok err].
    destruct (notnil err); simpl; auto.
  - destruct (notnil _); simpl; auto.
Qed.

Lemma db_Conn_ok db ctx st conn st1 :
  db_Conn db ctx st = (inl conn, st1) ->
  Conn_reply db ctx = nil /\ conn = length (conns st) /\
  st1 = mkStore (now st + took db (DBConn ctx)) (cancelled st) (conns st ++ [true])
          (chans st) (gos st) (log st ++ [DBConn ctx]).
Proof.
  run_M. destruct (Conn_reply db ctx); simpl; intros H; inversion H; auto.
Qed.

(** C2.  When a session was checked out and the acquisition fails (an error,
    or the lock not acquired), [Lock] returns no channel and a non-nil
    error; the last thing it did was to close the session, and it created
    no channel and started no goroutine. *)
Theorem Lock_acquisition_failure db ctx lockName options st conn ok err st1 st2 :
  db_Conn db ctx st = (inl conn, st1) ->
  getLock db ctx conn lockName (timeout (apply_options options)) st1 = (ok, err, st2) ->
  err <> nil \/ ok = false ->
  exists e st',
    Lock db ctx lockName options st = (None, Some e, st') /\
    log st' = log st2 ++ [ConnClose conn] /\
    conns st' !! conn = Some false /\
    chans st' = chans st /\
    gos st' = gos st.
Proof.
  intros Hc Hg Hfail.
  pose proof (getLock_frame db ctx conn lockName (timeout (apply_options options)) st1)
    as Hfr. simpl in Hfr. rewrite Hg in Hfr. simpl in Hfr.
  destruct Hfr as (Fc & Fch & Fg & _).
  apply db_Conn_ok in Hc as Hc'. destruct Hc' as (_ & -> & ->). simpl in *.
  assert (Hb : notnil err || negb ok = true).
  { destruct Hfail as [H| ->]; [|apply orb_true_r].
    apply notnil_true in H. rewrite H. reflexivity. }
  unfold Lock. unfold mbind at 1, M_bind at 1. rewrite Hc.
  unfold mbind at 1, M_bind at 1. rewrite Hg. rewrite Hb.
  eexists. eexists. split; [reflexivity|]. run_M.
  repeat split.
  - rewrite Fc. apply list_lookup_insert_eq. rewrite length_app. simpl. lia.
  - exact Fch.
  - exact Fg.
Qed.

(** The lock is taken by somebody else. *)
Lemma Lock_acquisition_failure_witness :
  exists e st',
    Lock (sample_db false) sample_ctx "A" [] store0 = (None, Some e, st') /\
    log st' = [DBConn sample_ctx; QueryRowScan sample_ctx 0%nat try_query (lockID "A");
               ConnClose 0%nat] /\
    conns st' !! 0%nat = Some false /\
    chans st' = [] /\ gos st' = [].
Proof.
  destruct (Lock_acquisition_failure (sample_db false) sample_ctx "A" [] store0
              0%nat false nil
              (snd (db_Conn (sample_db false) sample_ctx store0))
              (snd (getLock (sample_db false) sample_ctx 0%nat "A" 0
                      (snd (db_Conn (sample_db false) sample_ctx store0))))
              eq_refl eq_refl (or_intror eq_refl))
    as (e & st' & H1 & H2 & H3 & H4 & H5).
  exists e, st'. repeat split; assumption.
Defined.

(** C9.  [Lock] never returns a nil channel together with a nil error.  When
    the try-claim answers "not acquired" without an error, the error
    returned is a new one made from the nil error by [fmt.Errorf]. *)
Theorem Lock_never_nil_nil db ctx lockName options st :
  fst (Lock db ctx lockName options st) <> (None, nil) /\
  (Conn_reply db ctx = nil ->
   timeout (apply_options options) = 0 ->
   QueryRow_reply db ctx (length (conns st)) try_query (lockID lockName) = (false, nil) ->
   fst (Lock db ctx lockName options st)
   = (None, Some (ErrorString "could not obtain lock: <nil>"))).
Proof.
  split.
  - unfold Lock. unfold mbind at 1, M_bind at 1.
    destruct (db_Conn db ctx st) as [[conn|e] st1]; [|simpl; discriminate].
    unfold mbind at 1, M_bind at 1.
    destruct (getLock _ _ _ _ _ st1) as [[ok err] st2].
    destruct (notnil err || negb ok); run_M; discriminate.
  - intros Hc Ht Hq. unfold Lock, getLock. rewrite Ht. simpl.
    run_M. rewrite Hc. simpl. unfold try_query in Hq. rewrite Hq. reflexivity.
Qed.

(** The try-claim is refused without an error. *)
Lemma Lock_never_nil_nil_witness :
  fst (Lock (sample_db false) sample_ctx "A" [] store0)
  = (None, Some (ErrorString "could not obtain lock: <nil>")).
Proof.
  exact (proj2 (Lock_never_nil_nil (sample_db false) sample_ctx "A" [] store0)
           eq_refl eq_refl eq_refl).
Defined.

(** ** Release *)

(** The claim that the release request carries a deadline of its own fails:
    its context is the root context, which has none. *)
Lemma release_deadline_counterexample :
  ~ (exists c d,
        In (ExecContext c 0%nat unlock_query (lockID "A"))
           (log (snd (releaseLock (sample_db true) 0%nat "A" store0))) /\
        ctx_Deadline c = Some d).
Proof.
  intros (c & d & Hin & Hd). simpl in Hin.
  destruct Hin as [H|[]]. inversion H; subst c. discriminate Hd.
Qed.

(** C4 (amended).  The one request [releaseLock] makes runs under
    [context.Background()]: a context that is not derived from any other
    (so not from the caller's), has no deadline, and is never done, whatever
    cancel functions are called and whatever the time.  Cancelling the
    caller's context therefore cannot abort the release. *)
Theorem release_context_independent db conn lockName st :
  exists c,
    log (snd (releaseLock db conn lockName st))
    = log st ++ [ExecContext c conn unlock_query (lockID lockName)] /\
    (forall caller, derived_from c caller = false) /\
    ctx_Deadline c = None /\
    (forall t cancelled, ctx_Err t cancelled c = nil).
Proof.
  exists Background. repeat split.
Qed.

(** ** The goroutine: invariant of the completion protocol *)


Lemma actions_app l1 l2 : actions (l1 ++ l2) = actions l1 ++ actions l2.
Proof. unfold actions. induction l1; simpl; [reflexivity|]. destruct (is_action a); simpl; congruence. Qed.

Lemma delivered_app ch l1 l2 :
  delivered ch (l1 ++ l2) = delivered ch l1 ++ delivered ch l2.
Proof. unfold delivered. apply flat_map_app. Qed.

Lemma run_cons db g m ms s :
  run db g (m :: ms) s = run db g ms (sys_step db g m s).
Proof. reflexivity. Qed.

Section ProtocolProofs.
Variable db : DB.
Variable g : Closure.
Variable Q : error -> Prop.
Variable base : Store.
Hypothesis ticker_ok : 0 < pingInterval (g_opts g).

Ltac inv_intro :=
  intros (new & c & Hlog & Hconns & Hch & Hpc);
  simpl in Hlog, Hconns, Hch, Hpc.

Ltac log_snoc Hlog :=
  simpl; rewrite Hlog, <- ?app_assoc; reflexivity.

Lemma Inv_cancel pc st id :
  Inv db g Q base (pc, st) -> Inv db g Q base (pc, snd (call_cancel id st)).
Proof. inv_intro. exists new, c. simpl. auto. Qed.

Lemma Inv_elapse pc st d :
  Inv db g Q base (pc, st) -> Inv db g Q base (pc, snd (sleep d st)).
Proof. inv_intro. exists new, c. simpl. auto. Qed.

(** A receive takes the value if it is there, finds the channel closed,
    or blocks; the program point is not concerned. *)
Lemma Inv_recv pc st :
  Inv db g Q base (pc, st) ->
  Inv db g Q base (pc, snd (chan_recv (g_errs g) st)).
Proof.
  inv_intro. unfold Inv. run_M. rewrite Hch.
  destruct (buf c) as [|v rest] eqn:Hbuf.
  - destruct (closed c) eqn:Hcl; simpl.
    + exists (new ++ [ChanRecv (g_errs g) nil false]), c.
      split; [log_snoc Hlog|]. split; [exact Hconns|]. split; [exact Hch|].
      destruct pc as [ | | l | e | [|] | [|] | | ]; simpl in *;
        rewrite ?actions_app, ?delivered_app, ?app_nil_r; simpl;
        rewrite ?app_nil_r; try exact Hpc;
        try (destruct Hpc as (_ & _ & -> & _); discriminate Hcl).
    + exists new, c. simpl. auto.
  - simpl. exists (new ++ [ChanRecv (g_errs g) v true]), (mkChan (cap c) rest (closed c)).
    split; [log_snoc Hlog|]. split; [exact Hconns|].
    split; [apply list_lookup_insert_eq; eapply lookup_lt_Some; exact Hch|].
    destruct pc as [ | | l | e | [|] | [|] | | ]; simpl in *;
      try (destruct Hpc as (_ & _ & -> & _); discriminate Hbuf);
      try contradiction;
      destruct Hpc as (l & Hl & Ha & Hcap & Hcl & Hd); exists l;
      rewrite actions_app, delivered_app; simpl;
      rewrite Nat.eqb_refl, app_nil_r, <- app_assoc; simpl;
      rewrite Hbuf in Hd; auto.
Qed.

(** A step of the goroutine. *)
Lemma Inv_run pc st r :
  Inv db g Q base (pc, st) ->
  Inv db g Q base (goroutine_step db g r pc st).
Proof.
  inv_intro. unfold Inv.
  destruct pc as [ | | l | e | [|] | [|] | | ]; simpl in Hpc; try contradiction.
  - (* L62 *)
    simpl. destruct (Z.leb_spec (pingInterval (g_opts g)) 0) as [H|_]; [lia|].
    run_M. exists (new ++ [NewTicker (pingInterval (g_opts g))]), c.
    split; [log_snoc Hlog|]. split; [exact Hconns|]. split; [exact Hch|].
    rewrite actions_app, delivered_app, !app_nil_r. exact Hpc.
  - (* L65 *)
    destruct r as [|pong]; simpl.
    + run_M.
      destruct (ctx_Err _ _ _) as [err|] eqn:He; simpl.
      * exists new, c. simpl. repeat split; try tauto.
        apply Hpc. discriminate.
      * exists new, c. simpl. auto.
    + run_M. destruct pong as [err|]; simpl.
      * exists (new ++ [PingContext (g_ctx g) (g_conn g)]), c.
        split; [log_snoc Hlog|]. split; [exact Hconns|]. split; [exact Hch|].
        simpl. rewrite actions_app, delivered_app, !app_nil_r.
        repeat split; try tauto. apply Hpc. discriminate.
      * exists (new ++ [PingContext (g_ctx g) (g_conn g)]), c.
        split; [log_snoc Hlog|]. split; [exact Hconns|]. split; [exact Hch|].
        simpl. rewrite actions_app, delivered_app, !app_nil_r. exact Hpc.
  - (* L73 *)
    run_M. exists (new ++ [unlock_event g]), c.
    split; [log_snoc Hlog|]. split; [exact Hconns|]. split; [exact Hch|].
    simpl. rewrite actions_app, delivered_app, !app_nil_r.
    destruct Hpc as (Hl & -> & Hc & Hd). simpl.
    repeat split; auto. exists l. split; [exact Hl|reflexivity].
  - (* L77 *)
    destruct Hpc as ((l & Hl & ->) & Ha & -> & Hd).
    simpl. run_M. rewrite Hch. simpl.
    exists (new ++ [ChanSend (g_errs g) (ignoreErr (superseded db g l))]),
      (mkChan 1 [ignoreErr (superseded db g l)] false).
    split; [log_snoc Hlog|]. split; [exact Hconns|].
    split; [apply list_lookup_insert_eq; eapply lookup_lt_Some; exact Hch|].
    simpl. exists l. rewrite actions_app, delivered_app, Ha, Hd. simpl.
    repeat split; auto.
  - (* deferred ticker.Stop() *)
    simpl. run_M. exists (new ++ [TickerStop]), c.
    split; [log_snoc Hlog|]. split; [exact Hconns|]. split; [exact Hch|].
    simpl. rewrite actions_app, delivered_app, !app_nil_r. exact Hpc.
  - (* deferred close(errs) *)
    destruct Hpc as (l & Hl & Ha & Hcap & Hcl & Hd).
    simpl. run_M. rewrite Hch, Hcl. simpl.
    exists (new ++ [ChanClose (g_errs g)]), (mkChan (cap c) (buf c) true).
    split; [log_snoc Hlog|]. split; [exact Hconns|].
    split; [apply list_lookup_insert_eq; eapply lookup_lt_Some; exact Hch|].
    simpl. exists l. rewrite actions_app, delivered_app, Ha, app_nil_r. simpl.
    repeat split; auto.
  - (* returned *)
    simpl. exists new, c. simpl. auto.
Qed.

Lemma Inv_step m s : Inv db g Q base s -> Inv db g Q base (sys_step db g m s).
Proof.
  destruct s as [pc st]. destruct m as [r| |id|d]; simpl.
  - apply Inv_run.
  - apply Inv_recv.
  - apply Inv_cancel.
  - apply Inv_elapse.
Qed.

Lemma Inv_schedule ms s : Inv db g Q base s -> Inv db g Q base (run db g ms s).
Proof.
  revert s. induction ms as [|m ms IH]; intros s H; [exact H|].
  rewrite run_cons. apply IH, Inv_step, H.
Qed.

End ProtocolProofs.

(** ** What [Lock] leaves behind when it succeeds *)

Lemma Lock_success db ctx lockName options st errs err st1 :
  Lock db ctx lockName options st = (Some errs, err, st1) ->
  let g := mkClosure ctx (length (conns st)) lockName (apply_options options) errs in
  err = nil /\ errs = length (chans st) /\
  gos st1 = gos st ++ [g] /\
  chans st1 = chans st ++ [fresh_chan] /\
  conns st1 = conns st ++ [true].
Proof.
  unfold Lock. unfold mbind at 1, M_bind at 1.
  destruct (db_Conn db ctx st) as [[conn|e] st0] eqn:Hc; [|simpl; discriminate].
  apply db_Conn_ok in Hc. destruct Hc as (_ & -> & Hst0).
  unfold mbind at 1, M_bind at 1.
  pose proof (getLock_frame db ctx (length (conns st)) lockName
                (timeout (apply_options options)) st0) as Hfr.
  destruct (getLock _ _ _ _ _ st0) as [[ok e] st2]. simpl in Hfr.
  destruct Hfr as (Fc & Fch & Fg & _).
  destruct (notnil e || negb ok) eqn:Hb; run_M; [discriminate|].
  intros H. inversion H; subst; clear H. simpl in *.
  apply orb_false_elim in Hb. destruct Hb as [He _].
  destruct e; [discriminate He|].
  rewrite Fc, Fch, Fg. repeat split; reflexivity.
Qed.

Lemma Lock_started db ctx lockName options st errs err st1 g :
  Lock db ctx lockName options st = (Some errs, err, st1) ->
  last (gos st1) = Some g ->
  g = mkClosure ctx (length (conns st)) lockName (apply_options options) errs /\
  chans st1 !! g_errs g = Some fresh_chan /\
  conns st1 !! g_conn g = Some true.
Proof.
  intros HL Hg. apply Lock_success in HL. simpl in HL.
  destruct HL as (_ & He & Hgos & Hch & Hcn).
  rewrite Hgos, last_snoc in Hg. inversion Hg; subst g; clear Hg.
  split; [reflexivity|]. simpl. rewrite Hch, Hcn, He. split.
  - rewrite lookup_app_r by lia. rewrite Nat.sub_diag. reflexivity.
  - rewrite lookup_app_r by lia. rewrite Nat.sub_diag. reflexivity.
Qed.

Section Reach.
Variable db : DB.
Variable g : Closure.

(** The goroutine starts in a state of the invariant. *)
Lemma Inv_init (Q : error -> Prop) st1 :
  (forall l, l <> nil -> Q l) ->
  chans st1 !! g_errs g = Some fresh_chan ->
  Inv db g Q st1 (L62, st1).
Proof.
  intros HQ Hch. exists [], fresh_chan. simpl.
  rewrite app_nil_r. repeat split; auto.
Qed.

(** From the end of the loop on, the invariant holds again with the store
    of that moment as base and the terminal cause known. *)
Lemma Inv_rebase Q base lErr st :
  Inv db g Q base (L73 lErr, st) ->
  Inv db g (eq lErr) st (L73 lErr, st).
Proof.
  intros (new & c & _ & _ & Hch & (_ & _ & -> & _)).
  exists [], fresh_chan. simpl. rewrite app_nil_r. repeat split; auto.
Qed.


Lemma Inv_countdown Q base pc st r :
  Inv db g Q base (pc, st) ->
  loop_left pc = true ->
  let pc' := fst (goroutine_step db g r pc st) in
  loop_left pc' = true /\ steps_left pc' = Nat.pred (steps_left pc).
Proof.
  intros (new & c & Hlog & Hconns & Hch & Hpc) Hleft.
  simpl in Hlog, Hconns, Hch, Hpc.
  destruct pc as [ | | l | e | [|] | [|] | | ]; simpl in Hpc, Hleft;
    try contradiction; try discriminate; try (simpl; auto; fail).
  - destruct Hpc as (_ & _ & -> & _). simpl. run_M. rewrite Hch. simpl. auto.
  - destruct Hpc as (l & _ & _ & _ & Hcl & _).
    simpl. run_M. rewrite Hch, Hcl. simpl. auto.
Qed.

Lemma Inv_returns Q base (ticker_ok : 0 < pingInterval (g_opts g)) ms s :
  Inv db g Q base s ->
  loop_left (fst s) = true ->
  (steps_left (fst s) <= runs ms)%nat ->
  fst (run db g ms s) = Returned.
Proof.
  revert s. induction ms as [|m ms IH]; intros [pc st] HI Hleft Hn; simpl in Hleft, Hn.
  - unfold runs in Hn.
    destruct pc as [ | | l | e | [|] | [|] | | ]; simpl in *;
      try discriminate; try lia; try reflexivity;
      destruct HI as (new & c & _ & _ & _ & []).
  - rewrite run_cons.
    pose proof (Inv_step db g Q base ticker_ok m (pc, st) HI) as HI'.
    destruct m as [r| |id|d]; simpl in *.
    + pose proof (Inv_countdown Q base pc st r HI Hleft) as [Hl Hs]. simpl in Hl, Hs.
      destruct (goroutine_step db g r pc st) as [pc' st'] eqn:E. simpl in *.
      apply IH; simpl; [exact HI'|exact Hl|]. unfold runs in *. simpl in Hn. lia.
    + apply IH; simpl; [exact HI'|exact Hleft|exact Hn].
    + apply IH; simpl; [exact HI'|exact Hleft|exact Hn].
    + apply IH; simpl; [exact HI'|exact Hleft|exact Hn].
Qed.


Lemma no_ticker_step m pc st :
  pingInterval (g_opts g) <= 0 ->
  never_looped pc -> never_looped (fst (sys_step db g m (pc, st))).
Proof.
  intros Hp H. destruct m as [r| |id|d]; simpl; try exact H.
  destruct H as [->|[->| ->]]; simpl.
  - destruct (Z.leb_spec (pingInterval (g_opts g)) 0); [|lia]. right; left; reflexivity.
  - run_M. destruct (chans st !! g_errs g) as [c|]; simpl;
      [destruct (closed c); simpl|]; right; right; reflexivity.
  - right; right; reflexivity.
Qed.

Lemma no_ticker_run ms pc st :
  pingInterval (g_opts g) <= 0 ->
  never_looped pc -> never_looped (fst (run db g ms (pc, st))).
Proof.
  intros Hp. revert pc st. induction ms as [|m ms IH]; intros pc st H; [exact H|].
  rewrite run_cons.
  pose proof (no_ticker_step m pc st Hp H) as H'.
  destruct (sys_step db g m (pc, st)) as [pc' st']. apply IH, H'.
Qed.

(** So a run that reaches the loop or a later line had a proper ticker. *)
Lemma looped_ticker_ok ms st pc' st' :
  run db g ms (L62, st) = (pc', st') ->
  ~ never_looped pc' ->
  0 < pingInterval (g_opts g).
Proof.
  intros Hrun Hn.
  destruct (Z.ltb_spec 0 (pingInterval (g_opts g))) as [H|H]; [exact H|].
  exfalso. apply Hn.
  pose proof (no_ticker_run ms L62 st H (or_introl eq_refl)) as H'.
  rewrite Hrun in H'. exact H'.
Qed.

End Reach.

(** ** The completion signal *)

Section Signal.
Variable db : DB.
Variable g : Closure.

(** Past the loop the terminal cause is a definite value. *)
Lemma Inv_pin Q base pc st :
  Inv db g Q base (pc, st) ->
  loop_left pc = true ->
  exists l, Q l /\ Inv db g (eq l) base (pc, st).
Proof.
  intros (new & c & Hlog & Hconns & Hch & Hpc) Hleft.
  simpl in Hlog, Hconns, Hch, Hpc.
  destruct pc as [ | | l | e | [|] | [|] | | ]; simpl in Hpc, Hleft;
    try contradiction; try discriminate.
  - destruct Hpc as (Hl & Hrest). exists l. split; [exact Hl|].
    exists new, c. simpl. auto.
  - destruct Hpc as ((l & Hl & He) & Hrest). exists l. split; [exact Hl|].
    exists new, c. simpl. repeat split; try tauto. exists l. auto.
  - destruct Hpc as (l & Hl & Hrest). exists l. split; [exact Hl|].
    exists new, c. simpl. repeat split; auto. exists l. auto.
  - destruct Hpc as (l & Hl & Hrest). exists l. split; [exact Hl|].
    exists new, c. simpl. repeat split; auto. exists l. auto.
  - destruct Hpc as (l & Hl & Hrest). exists l. split; [exact Hl|].
    exists new, c. simpl. repeat split; auto. exists l. auto.
Qed.

(** At every moment the requests and channel writes made so far are the
    beginning of: release, one send, close. *)
Lemma Inv_prefix l base pc st :
  Inv db g (eq l) base (pc, st) ->
  loop_left pc = true ->
  exists new,
    log st = log base ++ new /\
    actions new `prefix_of`
      [unlock_event g; ChanSend (g_errs g) (reported db g l); ChanClose (g_errs g)] /\
    delivered (g_errs g) new `prefix_of` [reported db g l].
Proof.
  intros (new & c & Hlog & Hconns & Hch & Hpc) Hleft.
  simpl in Hlog, Hconns, Hch, Hpc. exists new. split; [exact Hlog|].
  destruct pc as [ | | l0 | e | [|] | [|] | | ]; simpl in Hpc, Hleft;
    try contradiction; try discriminate.
  - destruct Hpc as (_ & -> & _ & ->). split; apply prefix_nil.
  - destruct Hpc as (_ & -> & _ & ->). split; [|apply prefix_nil].
    eexists; reflexivity.
  - destruct Hpc as (l' & <- & -> & _ & _ & Hd). split.
    + eexists; reflexivity.
    + exists (buf c). symmetry. exact Hd.
  - destruct Hpc as (l' & <- & -> & _ & _ & Hd). split.
    + eexists; reflexivity.
    + exists (buf c). symmetry. exact Hd.
  - destruct Hpc as (l' & <- & -> & _ & _ & Hd). split.
    + exists []. reflexivity.
    + exists (buf c). symmetry. exact Hd.
Qed.

(** When the goroutine has returned, they are exactly that. *)
Lemma Inv_returned l base st :
  Inv db g (eq l) base (Returned, st) ->
  exists new c,
    log st = log base ++ new /\
    actions new
    = [unlock_event g; ChanSend (g_errs g) (reported db g l); ChanClose (g_errs g)] /\
    chans st !! g_errs g = Some c /\ closed c = true /\
    delivered (g_errs g) new ++ buf c = [reported db g l].
Proof.
  intros (new & c & Hlog & Hconns & Hch & Hpc). simpl in Hlog, Hconns, Hch, Hpc.
  destruct Hpc as (l' & <- & Ha & _ & Hcl & Hd).
  exists new, c. auto.
Qed.

End Signal.

(** C1 (amended).  After a successful [Lock] with a positive ping interval,
    under every schedule of the goroutine, the receiver and the context
    owners: what the goroutine has done so far is the beginning of "release
    request, one send on the channel, close of the channel", and what the
    receiver has got is at most that one value.  When the loop is left with
    cause [lErr], the value is the error of the release request if that is a
    real error; otherwise it is nil when the cause is benign (a clean
    release) and the cause itself when it is not.  Once the loop is left,
    every schedule that lets the goroutine take four more steps ends with
    the goroutine returned, the release request made, the one value sent
    and then the channel closed. *)
Theorem completion_signal db ctx lockName options st errs err st1 g ms pc st2 :
  Lock db ctx lockName options st = (Some errs, err, st1) ->
  last (gos st1) = Some g ->
  0 < pingInterval (g_opts g) ->
  run db g ms (L62, st1) = (pc, st2) ->
  exists new v,
    log st2 = log st1 ++ new /\
    ~ benign v /\
    actions new `prefix_of` [unlock_event g; ChanSend errs v; ChanClose errs] /\
    delivered errs new `prefix_of` [v] /\
    (forall lErr, pc = L73 lErr ->
       let rel := release_reply db g in
       lErr <> nil /\
       (rel <> nil -> ~ benign rel -> v = rel) /\
       (rel = nil \/ benign rel -> benign lErr -> v = nil) /\
       (rel = nil \/ benign rel -> ~ benign lErr -> v = lErr)) /\
    (loop_left pc = true ->
     forall ms', (4 <= runs ms')%nat ->
       exists st3 new' c,
         run db g ms' (pc, st2) = (Returned, st3) /\
         log st3 = log st1 ++ new' /\
         actions new' = [unlock_event g; ChanSend errs v; ChanClose errs] /\
         chans st3 !! errs = Some c /\ closed c = true /\
         delivered errs new' ++ buf c = [v]).
Proof.
  intros HL Hg Htick Hrun.
  destruct (Lock_started _ _ _ _ _ _ _ _ _ HL Hg) as (Eg & Hch & _).
  assert (Ee : g_errs g = errs) by (rewrite Eg; reflexivity).
  pose proof (Inv_schedule db g (fun l => l <> nil) st1 Htick ms (L62, st1)
                (Inv_init db g _ st1 (fun l H => H) Hch)) as HI.
  rewrite Hrun in HI. rewrite <- Ee.
  destruct (loop_left pc) eqn:Hleft.
  - destruct (Inv_pin db g _ st1 pc st2 HI Hleft) as (l & Hl & HIl).
    destruct (Inv_prefix db g l st1 pc st2 HIl Hleft) as (new & Hlog & Hp & Hd).
    exists new, (reported db g l).
    split; [exact Hlog|]. split; [apply ignoreErr_not_benign|].
    split; [exact Hp|]. split; [exact Hd|]. split.
    + intros lErr ->.
      destruct HIl as (new0 & c0 & _ & _ & _ & (<- & _)).
      cbv zeta. split; [exact Hl|].
      unfold reported, superseded. split; [|split].
      * intros Hn Hb. rewrite (ignoreErr_other _ Hb).
        apply notnil_true in Hn. rewrite Hn. apply ignoreErr_other, Hb.
      * intros Hrel Hb.
        assert (E : ignoreErr (release_reply db g) = nil)
          by (apply ignoreErr_nil_iff, Hrel).
        rewrite E. simpl. apply ignoreErr_benign, Hb.
      * intros Hrel Hb.
        assert (E : ignoreErr (release_reply db g) = nil)
          by (apply ignoreErr_nil_iff, Hrel).
        rewrite E. simpl. apply ignoreErr_other, Hb.
    + intros _ ms' Hn.
      pose proof (Inv_schedule db g (eq l) st1 Htick ms' (pc, st2) HIl) as HI3.
      pose proof (Inv_returns db g (eq l) st1 Htick ms' (pc, st2) HIl Hleft) as Hret.
      simpl in Hret.
      assert (Hsteps : (steps_left pc <= runs ms')%nat).
      { destruct pc; simpl; lia. }
      specialize (Hret Hsteps).
      destruct (run db g ms' (pc, st2)) as [pc3 st3]. simpl in Hret. subst pc3.
      destruct (Inv_returned db g l st1 st3 HI3) as (new' & c & H1 & H2 & H3 & H4 & H5).
      exists st3, new', c. repeat split; assumption.
  - destruct HI as (new & c & Hlog & _ & _ & Hpc). simpl in Hlog, Hpc.
    exists new, nil. split; [exact Hlog|].
    split; [intros B; now apply benign_notnil in B|].
    assert (actions new = [] /\ delivered (g_errs g) new = []) as [-> ->].
    { destruct pc; simpl in Hpc, Hleft; try discriminate; tauto. }
    split; [apply prefix_nil|]. split; [apply prefix_nil|].
    split; [intros lErr ->; discriminate Hleft|discriminate].
Qed.

(** C6.  When the loop ends with cause [lErr] and the goroutine runs to its
    return, the one value sent is the error of the release request if that
    is a real error (not nil, not benign), and the classified cause
    otherwise. *)
Theorem release_error_supersedes
    db ctx lockName options st errs err st1 g ms lErr st2 ms' st3 :
  Lock db ctx lockName options st = (Some errs, err, st1) ->
  last (gos st1) = Some g ->
  run db g ms (L62, st1) = (L73 lErr, st2) ->
  run db g ms' (L73 lErr, st2) = (Returned, st3) ->
  let rel := Exec_reply db Background (g_conn g) unlock_query (lockID (g_lockName g)) in
  exists new v,
    log st3 = log st2 ++ new /\
    actions new = [unlock_event g; ChanSend errs v; ChanClose errs] /\
    (rel <> nil -> ~ benign rel -> v = rel) /\
    (rel = nil \/ benign rel -> v = ignoreErr lErr).
Proof.
  intros HL Hg Hrun Hrun' rel.
  destruct (Lock_started _ _ _ _ _ _ _ _ _ HL Hg) as (Eg & Hch & _).
  assert (Ee : g_errs g = errs) by (rewrite Eg; reflexivity).
  assert (Htick : 0 < pingInterval (g_opts g)).
  { apply (looped_ticker_ok db g ms st1 _ _ Hrun).
    unfold never_looped. intuition discriminate. }
  pose proof (Inv_schedule db g (fun l => l <> nil) st1 Htick ms (L62, st1)
                (Inv_init db g _ st1 (fun l H => H) Hch)) as HI.
  rewrite Hrun in HI. apply Inv_rebase in HI.
  pose proof (Inv_schedule db g (eq lErr) st2 Htick ms' _ HI) as HI3.
  rewrite Hrun' in HI3.
  destruct (Inv_returned db g lErr st2 st3 HI3) as (new & c & H1 & H2 & _).
  exists new, (reported db g lErr). rewrite <- Ee.
  split; [exact H1|]. split; [exact H2|].
  unfold reported, superseded, release_reply. fold rel. split.
  - intros Hn Hb. rewrite (ignoreErr_other rel Hb).
    apply notnil_true in Hn. rewrite Hn. apply ignoreErr_other, Hb.
  - intros H. assert (E : ignoreErr rel = nil) by (apply ignoreErr_nil_iff, H).
    rewrite E. reflexivity.
Qed.

(** ** The send cannot block *)


(** ** The session after the lock is released *)

Lemma step_keeps_session db g m s :
  conns (snd (sys_step db g m s)) = conns (snd s) /\
  exists evs,
    log (snd (sys_step db g m s)) = log (snd s) ++ evs /\
    forall c, ~ In (ConnClose c) evs.
Proof.
  destruct s as [pc st].
  assert (Hnone : forall c, ~ In (ConnClose c) []) by (intros c []).
  assert (Hone : forall e, (forall c, e <> ConnClose c) ->
                           forall c, ~ In (ConnClose c) [e]).
  { intros e He c [H|[]]. exact (He c H). }
  destruct m as [r| |id|d]; simpl.
  - destruct pc as [ | | l | e | p | p | | ]; simpl.
    + destruct (pingInterval (g_opts g) <=? 0); run_M.
      * split; [reflexivity|]. exists []. rewrite app_nil_r. auto.
      * split; [reflexivity|]. eexists. split; [reflexivity|].
        apply Hone. discriminate.
    + destruct r as [|pong]; run_M.
      * destruct (notnil _); simpl; (split; [reflexivity|]);
          exists []; rewrite app_nil_r; auto.
      * destruct (notnil pong); simpl; (split; [reflexivity|]);
          (eexists; split; [reflexivity|]); apply Hone; discriminate.
    + run_M. split; [reflexivity|]. eexists. split; [reflexivity|].
      apply Hone. discriminate.
    + run_M. destruct (chans st !! g_errs g) as [c|]; simpl.
      * destruct (closed c); simpl.
        -- split; [reflexivity|]. exists []. rewrite app_nil_r. auto.
        -- destruct (length (buf c) <? cap c)%nat; simpl.
           ++ split; [reflexivity|]. eexists. split; [reflexivity|].
              apply Hone. discriminate.
           ++ split; [reflexivity|]. exists []. rewrite app_nil_r. auto.
      * split; [reflexivity|]. exists []. rewrite app_nil_r. auto.
    + run_M. split; [reflexivity|]. eexists. split; [reflexivity|].
      apply Hone. discriminate.
    + run_M. destruct (chans st !! g_errs g) as [c|]; simpl.
      * destruct (closed c); simpl.
        -- split; [reflexivity|]. exists []. rewrite app_nil_r. auto.
        -- destruct p; simpl; (split; [reflexivity|]);
             (eexists; split; [reflexivity|]); apply Hone; discriminate.
      * split; [reflexivity|]. exists []. rewrite app_nil_r. auto.
    + split; [reflexivity|]. exists []. rewrite app_nil_r. auto.
    + split; [reflexivity|]. exists []. rewrite app_nil_r. auto.
  - run_M. destruct (chans st !! g_errs g) as [c|]; simpl.
    + destruct (buf c) as [|v rest]; simpl.
      * destruct (closed c); simpl.
        -- split; [reflexivity|]. eexists. split; [reflexivity|].
           apply Hone. discriminate.
        -- split; [reflexivity|]. exists []. rewrite app_nil_r. auto.
      * split; [reflexivity|]. eexists. split; [reflexivity|].
        apply Hone. discriminate.
    + split; [reflexivity|]. exists []. rewrite app_nil_r. auto.
  - split; [reflexivity|]. exists []. rewrite app_nil_r. auto.
  - split; [reflexivity|]. exists []. rewrite app_nil_r. auto.
Qed.

Lemma run_keeps_session db g ms s :
  conns (snd (run db g ms s)) = conns (snd s) /\
  exists new,
    log (snd (run db g ms s)) = log (snd s) ++ new /\
    forall c, ~ In (ConnClose c) new.
Proof.
  revert s. induction ms as [|m ms IH]; intros s.
  - simpl. split; [reflexivity|]. exists []. rewrite app_nil_r.
    split; [reflexivity|]. intros c [].
  - rewrite run_cons.
    destruct (IH (sys_step db g m s)) as (Hc & new & Hl & Hn).
    destruct (step_keeps_session db g m s) as (Hc' & evs & Hl' & Hn').
    split; [congruence|]. exists (evs ++ new).
    split; [rewrite Hl, Hl', app_assoc; reflexivity|].
    intros c Hin. apply in_app_iff in Hin. destruct Hin; [eapply Hn'|eapply Hn]; eauto.
Qed.

(** C7 (what the code does).  Whatever the schedule, and also when the
    goroutine has returned, the session [Lock] checked out is still open
    and no [Close] of any session was requested since [Lock] returned: the
    goroutine releases the advisory lock but never returns the session to
    the pool, unlike the failure path of [Lock], which closes it. *)
Theorem session_left_open db ctx lockName options st errs err st1 g ms pc st2 :
  Lock db ctx lockName options st = (Some errs, err, st1) ->
  last (gos st1) = Some g ->
  run db g ms (L62, st1) = (pc, st2) ->
  conns st2 !! g_conn g = Some true /\
  exists new,
    log st2 = log st1 ++ new /\
    forall c, ~ In (ConnClose c) new.
Proof.
  intros HL Hg Hrun.
  destruct (Lock_started _ _ _ _ _ _ _ _ _ HL Hg) as (_ & _ & Hcn).
  destruct (run_keeps_session db g ms (L62, st1)) as (Hc & new & Hl & Hn).
  rewrite Hrun in Hc, Hl. simpl in Hc, Hl.
  split; [rewrite Hc; exact Hcn|]. exists new. auto.
Qed.

(** ** The theorems at a concrete run *)

(** The lock "A": a ping, a cancellation, and the goroutine runs to its end
    with nobody receiving; the value sent is nil. *)
Lemma completion_signal_witness :
  exists st3 new' c,
    run (sample_db true) sample_g sample_finish
      (L73 (Some Canceled),
       snd (run (sample_db true) sample_g sample_hold (L62, sample_st1)))
    = (Returned, st3) /\
    log st3 = log sample_st1 ++ new' /\
    actions new' = [unlock_event sample_g; ChanSend 0%nat nil; ChanClose 0%nat] /\
    chans st3 !! 0%nat = Some c /\ closed c = true /\
    delivered 0%nat new' ++ buf c = [nil].
Proof.
  assert (HL : Lock (sample_db true) sample_ctx "A" [] store0
               = (Some 0%nat, nil, sample_st1)) by (vm_compute; reflexivity).
  assert (Hg : last (gos sample_st1) = Some sample_g) by (vm_compute; reflexivity).
  assert (Ht : 0 < pingInterval (g_opts sample_g)) by (vm_compute; reflexivity).
  assert (Hrun : run (sample_db true) sample_g sample_hold (L62, sample_st1)
                 = (L73 (Some Canceled),
                    snd (run (sample_db true) sample_g sample_hold (L62, sample_st1))))
    by (vm_compute; reflexivity).
  destruct (completion_signal _ _ _ _ _ _ _ _ _ _ _ _ HL Hg Ht Hrun)
    as (new & v & _ & _ & _ & _ & Hval & Hlive).
  assert (Hv : v = nil).
  { destruct (Hval (Some Canceled) eq_refl) as (_ & _ & Hclean & _).
    apply Hclean; [left; reflexivity|]. unfold benign. auto. }
  subst v.
  destruct (Hlive eq_refl sample_finish (le_n 4)) as (st3 & new' & c & H).
  exists st3, new', c. exact H.
Defined.

(** The same run against a database that fails the release: the driver
    error is what is sent, not the cancellation. *)
Lemma release_error_supersedes_witness :
  exists new,
    log (snd (run broken_release_db sample_g sample_finish
                (L73 (Some Canceled),
                 snd (run broken_release_db sample_g sample_hold (L62, broken_st1)))))
    = log (snd (run broken_release_db sample_g sample_hold (L62, broken_st1))) ++ new /\
    actions new = [unlock_event sample_g;
                   ChanSend 0%nat (Some (ErrorString "driver: bad connection"));
                   ChanClose 0%nat].
Proof.
  assert (HL : Lock broken_release_db sample_ctx "A" [] store0
               = (Some 0%nat, nil, broken_st1)) by (vm_compute; reflexivity).
  assert (Hg : last (gos broken_st1) = Some sample_g) by (vm_compute; reflexivity).
  assert (Hrun : run broken_release_db sample_g sample_hold (L62, broken_st1)
                 = (L73 (Some Canceled),
                    snd (run broken_release_db sample_g sample_hold (L62, broken_st1))))
    by (vm_compute; reflexivity).
  assert (Hrun' : run broken_release_db sample_g sample_finish
                    (L73 (Some Canceled),
                     snd (run broken_release_db sample_g sample_hold (L62, broken_st1)))
                  = (Returned,
                     snd (run broken_release_db sample_g sample_finish
                            (L73 (Some Canceled),
                             snd (run broken_release_db sample_g sample_hold
                                    (L62, broken_st1))))))
    by (vm_compute; reflexivity).
  destruct (release_error_supersedes _ _ _ _ _ _ _ _ _ _ _ _ _ _ HL Hg Hrun Hrun')
    as (new & v & Hlog & Hact & Hrel & _).
  assert (Hv : v = Some (ErrorString "driver: bad connection")).
  { apply Hrel; [discriminate|]. unfold benign. intuition discriminate. }
  exists new. split; [exact Hlog|]. rewrite Hact, Hv. reflexivity.
Defined.


(** The lock is taken, held, released after a cancellation, and the
    goroutine has returned: the session is still checked out. *)
Lemma session_left_open_witness :
  fst (run (sample_db true) sample_g (sample_hold ++ sample_finish) (L62, sample_st1))
  = Returned /\
  conns (snd (run (sample_db true) sample_g (sample_hold ++ sample_finish)
                (L62, sample_st1))) !! 0%nat = Some true.
Proof.
  assert (HL : Lock (sample_db true) sample_ctx "A" [] store0
               = (Some 0%nat, nil, sample_st1)) by (vm_compute; reflexivity).
  assert (Hg : last (gos sample_st1) = Some sample_g) by (vm_compute; reflexivity).
  assert (Hrun : run (sample_db true) sample_g (sample_hold ++ sample_finish)
                   (L62, sample_st1)
                 = (Returned,
                    snd (run (sample_db true) sample_g (sample_hold ++ sample_finish)
                           (L62, sample_st1))))
    by (vm_compute; reflexivity).
  split; [vm_compute; reflexivity|].
  exact (proj1 (session_left_open _ _ _ _ _ _ _ _ _ _ _ _ HL Hg Hrun)).
Defined.

(** The same run, evaluated: release, send, close, and no [ConnClose]. *)
Example session_leak_run :
  log (snd (run (sample_db true) sample_g (sample_hold ++ sample_finish)
              (L62, sample_st1)))
  = [DBConn sample_ctx;
     QueryRowScan sample_ctx 0%nat try_query (lockID "A");
     MakeChan 0%nat 1; GoStmt sample_g;
     NewTicker defaultPingInterval;
     PingContext sample_ctx 0%nat;
     ExecContext Background 0%nat unlock_query (lockID "A");
     ChanSend 0%nat nil; TickerStop; ChanClose 0%nat].
Proof. vm_compute. reflexivity. Qed.

(** An interval that is not positive: [time.NewTicker] panics, the deferred
    close runs, nothing is sent. *)
Example zero_interval_panics :
  let st1 := snd (Lock (sample_db true) sample_ctx "A" [WithPingInterval 0] store0) in
  let g := mkClosure sample_ctx 0%nat "A" (apply_options [WithPingInterval 0]) 0%nat in
  let s := run (sample_db true) g [Run PickDone; Run PickDone] (L62, st1) in
  fst s = Panicked /\ actions (drop (length (log st1)) (log (snd s))) = [ChanClose 0%nat].
Proof. vm_compute. split; reflexivity. Qed.

(** The key of the lock "A", the same in the claim and in the release. *)
Lemma lockID_shared_key_witness :
  0 <= lockID "A" < 2 ^ 32 /\
  lockID "A" = 0xd3d99e8b /\
  log (snd (tryLock (sample_db true) sample_ctx 0%nat "A" store0))
  = [QueryRowScan sample_ctx 0%nat try_query 0xd3d99e8b] /\
  log (snd (releaseLock (sample_db true) 0%nat "A" store0))
  = [ExecContext Background 0%nat unlock_query 0xd3d99e8b].
Proof.
  assert (E : lockID "A" = 0xd3d99e8b) by (vm_compute; reflexivity).
  destruct (lockID_shared_key "A") as (Hr & Hsame & Htry & _ & Hrel).
  split; [exact Hr|]. split; [exact (Hsame "A" eq_refl)|].
  rewrite <- E. split.
  - exact (Htry (sample_db true) sample_ctx 0%nat store0).
  - exact (Hrel (sample_db true) 0%nat store0).
Defined.

(** * Further properties of the code *)

(** ** Options *)

(** X1.  Options are applied in order, each to the result of the ones
    before: a [WithTimeout] at the end sets the timeout and keeps the ping
    interval the earlier options produced, and a [WithPingInterval] at the
    end does the converse.  So of two settings of the same field the later
    one counts. *)
Theorem options_last_wins (options : list LockOption) (t p : Duration) :
  apply_options (options ++ [WithTimeout t])
  = mkOpts t (pingInterval (apply_options options)) /\
  apply_options (options ++ [WithPingInterval p])
  = mkOpts (timeout (apply_options options)) p /\
  timeout (apply_options (options ++ [WithTimeout p; WithTimeout t])) = t.
Proof.
  unfold apply_options. rewrite !fold_left_app. simpl. auto.
Qed.

Lemma fold_keeps_timeout options o0 :
  Forall keeps_timeout options ->
  timeout (fold_left (fun opts o => o opts) options o0) = timeout o0.
Proof.
  intros H. revert o0. induction H as [|o os Ho _ IH]; simpl; intros o0.
  - reflexivity.
  - rewrite IH. apply Ho.
Qed.

(** X2.  When no option sets the timeout, [Lock] never waits: after the
    session is checked out it makes one try-claim under the caller's own
    context, and then either closes the session (not acquired) or creates
    the channel and starts the goroutine. *)
Theorem Lock_without_timeout_tries_once db ctx lockName options st :
  Forall keeps_timeout options ->
  Conn_reply db ctx = nil ->
  let conn := length (conns st) in
  exists tail,
    log (snd (Lock db ctx lockName options st))
    = log st ++ DBConn ctx :: QueryRowScan ctx conn try_query (lockID lockName) :: tail /\
    (tail = [ConnClose conn] \/
     tail = [MakeChan (length (chans st)) 1;
             GoStmt (mkClosure ctx conn lockName (apply_options options)
                       (length (chans st)))]).
Proof.
  intros Hopt Hc conn.
  assert (Ht : timeout (apply_options options) = 0).
  { unfold apply_options. rewrite fold_keeps_timeout by exact Hopt. reflexivity. }
  unfold Lock, getLock. rewrite Ht. simpl. run_M. rewrite Hc. simpl.
  destruct (QueryRow_reply db ctx _ _ _) as [ok err].
  destruct err as [e|]; simpl.
  - eexists. split; [rewrite <- !app_assoc; reflexivity|]. left; reflexivity.
  - destruct ok; simpl.
    + eexists. split; [rewrite <- !app_assoc; reflexivity|]. right; reflexivity.
    + eexists. split; [rewrite <- !app_assoc; reflexivity|]. left; reflexivity.
Qed.

Lemma Lock_without_timeout_tries_once_witness :
  log (snd (Lock (sample_db false) sample_ctx "A" [WithPingInterval Second] store0))
  = [DBConn sample_ctx; QueryRowScan sample_ctx 0%nat try_query (lockID "A");
     ConnClose 0%nat].
Proof.
  assert (Hk : Forall keeps_timeout [WithPingInterval Second]).
  { constructor; [intros opts; reflexivity|constructor]. }
  destruct (Lock_without_timeout_tries_once (sample_db false) sample_ctx "A"
              [WithPingInterval Second] store0 Hk eq_refl) as (tail & Hlog & Htail).
  rewrite Hlog. destruct Htail as [->|Htail]; [reflexivity|].
  exfalso. rewrite Htail in Hlog. vm_compute in Hlog. discriminate Hlog.
Defined.

(** ** Setup failure *)

(** X3.  When the session cannot be checked out, [Lock] returns the error
    of [db.Conn] itself, unchanged, with no channel; it has made no other
    request, and no session, channel or goroutine exists that did not
    before. *)
Theorem Lock_setup_failure db ctx lockName options st e :
  Conn_reply db ctx = Some e ->
  exists st',
    Lock db ctx lockName options st = (None, Some e, st') /\
    log st' = log st ++ [DBConn ctx] /\
    conns st' = conns st /\ chans st' = chans st /\ gos st' = gos st.
Proof.
  intros Hc. unfold Lock. run_M. rewrite Hc. simpl.
  eexists. split; [reflexivity|]. simpl. auto.
Qed.

(** A pool that is closed. *)
Lemma Lock_setup_failure_witness :
  exists st',
    Lock closed_db sample_ctx "A" [] store0
    = (None, Some (ErrorString "sql: database is closed"), st') /\
    log st' = [DBConn sample_ctx] /\
    conns st' = [] /\ chans st' = [] /\ gos st' = [].
Proof.
  exact (Lock_setup_failure closed_db sample_ctx "A" [] store0
           (ErrorString "sql: database is closed") eq_refl).
Defined.

(** ** When [Lock] succeeds *)

(** X4.  [Lock] returns a channel exactly when the session is checked out
    and the claim is granted without error: the try-claim answers
    [(true, nil)] when the timeout is zero, the blocking claim under the
    deadline context answers [nil] otherwise. *)
Theorem Lock_succeeds_iff db ctx lockName options st :
  let conn := length (conns st) in
  let t := timeout (apply_options options) in
  let st0 := after_Conn db ctx st in
  (exists errs, fst (Lock db ctx lockName options st) = (Some errs, nil))
  <->
  Conn_reply db ctx = nil /\
  (if t =? 0
   then exists err, QueryRow_reply db ctx conn try_query (lockID lockName) = (true, err)
                    /\ err = nil
   else Exec_reply db (WithDeadline ctx (now st0 + t)) conn lock_query (lockID lockName)
        = nil).
Proof.
  intros conn t st0. unfold st0, after_Conn, Lock, getLock. fold t. run_M.
  destruct (Conn_reply db ctx) as [e|]; simpl.
  - split; [intros (errs & H); discriminate H | intros [H _]; discriminate H].
  - fold conn. destruct (t =? 0); simpl.
    + unfold try_query.
      destruct (QueryRow_reply db ctx conn _ _) as [ok err].
      destruct err as [e|]; simpl.
      * split; [intros (errs & H); discriminate H|].
        intros (_ & err & H & ->). discriminate H.
      * destruct ok; simpl.
        -- split; [intros _; split; [reflexivity|]; exists nil; auto|].
           intros _. eexists. reflexivity.
        -- split; [intros (errs & H); discriminate H|].
           intros (_ & err & H & _). discriminate H.
    + unfold lock_query.
      destruct (Exec_reply db _ conn _ _) as [e|]; simpl.
      * split; [intros (errs & H); discriminate H | intros [_ H]; discriminate H].
      * split; [intros _; auto|]. intros _. eexists. reflexivity.
Qed.

(** X5.  When the acquisition fails, the error [Lock] returns is a new
    error whose text is "could not obtain lock: " followed by the text of
    the cause ("<nil>" when the claim was refused without an error).  It is
    not the cause itself: a wait that ran out of time does not come back as
    [context.DeadlineExceeded], and the classifier would not suppress it. *)
Theorem Lock_failure_error db ctx lockName options st conn ok err st1 st2 :
  db_Conn db ctx st = (inl conn, st1) ->
  getLock db ctx conn lockName (timeout (apply_options options)) st1 = (ok, err, st2) ->
  err <> nil \/ ok = false ->
  fst (Lock db ctx lockName options st) = (None, Some (could_not_obtain err)) /\
  Some (could_not_obtain err) <> err /\
  ignoreErr (Some (could_not_obtain err)) = Some (could_not_obtain err).
Proof.
  intros Hc Hg Hfail.
  assert (Hb : notnil err || negb ok = true).
  { destruct Hfail as [H| ->]; [|apply orb_true_r].
    apply notnil_true in H. rewrite H. reflexivity. }
  split; [|split].
  - unfold Lock. unfold mbind at 1, M_bind at 1. rewrite Hc.
    unfold mbind at 1, M_bind at 1. rewrite Hg, Hb. reflexivity.
  - destruct err as [[ | | | m | m x]|]; try discriminate.
    unfold could_not_obtain. simpl. intros H. inversion H as [H1].
    apply (f_equal String.length) in H1. simpl in H1. lia.
  - apply ignoreErr_other. unfold benign, could_not_obtain. intuition discriminate.
Qed.

(** A wait of a millisecond that runs out of time. *)
Lemma Lock_failure_error_witness :
  fst (Lock waiting_db sample_ctx "A" [WithTimeout 1000000] store0)
  = (None, Some (ErrorString "could not obtain lock: context deadline exceeded")).
Proof.
  pose (st1 := snd (db_Conn waiting_db sample_ctx store0)).
  pose (st2 := snd (getLock waiting_db sample_ctx 0%nat "A"
                      (timeout (apply_options [WithTimeout 1000000])) st1)).
  assert (Hc : db_Conn waiting_db sample_ctx store0 = (inl 0%nat, st1))
    by (vm_compute; reflexivity).
  assert (Hg : getLock waiting_db sample_ctx 0%nat "A"
                 (timeout (apply_options [WithTimeout 1000000])) st1
               = (false, Some DeadlineExceeded, st2))
    by (vm_compute; reflexivity).
  assert (Hf : Some DeadlineExceeded <> nil \/ false = false) by (right; reflexivity).
  pose proof (Lock_failure_error waiting_db sample_ctx "A" [WithTimeout 1000000]
                store0 0%nat false (Some DeadlineExceeded) st1 st2 Hc Hg Hf) as H.
  destruct H as (H & _). rewrite H. reflexivity.
Defined.

(** X6.  The blocking claim always runs under a deadline: one that is no
    later than [timeout] after the call and no later than the deadline of
    the caller's context, if that has one. *)
Theorem waitForLock_deadline db ctx conn lockName timeout st :
  exists ctx' d,
    log (snd (waitForLock db ctx conn lockName timeout st))
    = log st ++ [ExecContext ctx' conn lock_query (lockID lockName); CancelFunc ctx'] /\
    ctx_Deadline ctx' = Some d /\
    d <= now st + timeout /\
    (forall dp, ctx_Deadline ctx = Some dp -> d <= dp).
Proof.
  exists (WithDeadline ctx (now st + timeout)).
  simpl. destruct (ctx_Deadline ctx) as [dp|].
  - exists (Z.min dp (now st + timeout)).
    split; [apply waitForLock_log|]. split; [reflexivity|].
    split; [lia|]. intros dp' H. inversion H. lia.
  - exists (now st + timeout).
    split; [apply waitForLock_log|]. split; [reflexivity|].
    split; [lia|]. intros dp' H. discriminate H.
Qed.

(** ** The identifier mapper and the classifier *)

(** X7.  The identifier mapper is not injective: two different names can
    have the same identifier, and then name the same advisory lock. *)
Theorem lockID_not_injective :
  exists a b : string, a <> b /\ lockID a = lockID b.
Proof.
  exists "plumless", "buckeroo". split; [discriminate|].
  vm_compute. reflexivity.
Qed.

(** X8.  Classifying twice is classifying once, and what the classifier
    returns is never one of the three benign errors: the double
    classification of the release error (lines 73 and 77) changes
    nothing. *)
Theorem ignoreErr_idempotent (e : error) :
  ignoreErr (ignoreErr e) = ignoreErr e /\ ~ benign (ignoreErr e).
Proof.
  split; [apply ignoreErr_other|]; apply ignoreErr_not_benign.
Qed.

(** ** The hold and its end *)

Lemma run_app db g ms1 ms2 s :
  run db g (ms1 ++ ms2) s = run db g ms2 (run db g ms1 s).
Proof. unfold run. apply fold_left_app. Qed.

Lemma runs_app ms1 ms2 : runs (ms1 ++ ms2) = (runs ms1 + runs ms2)%nat.
Proof. unfold runs. rewrite List.filter_app, length_app. reflexivity. Qed.

(** Only a step of the goroutine changes its program point. *)
Lemma other_moves_keep_pc db g m s :
  runs [m] = 0%nat -> fst (sys_step db g m s) = fst s.
Proof. destruct m; simpl; intros H; try reflexivity. discriminate H. Qed.

(** The one step that leads to line 73 is a step from the [select]. *)
Lemma step_to_L73 db g r pc st l st' :
  goroutine_step db g r pc st = (L73 l, st') ->
  pc = L65 /\
  ((r = PickDone /\ st' = st /\
    l = ctx_Err (now st) (fun id => bool_decide (id ∈ cancelled st)) (g_ctx g)) \/
   (r = PickTick l /\
    log st' = log st ++ [PingContext (g_ctx g) (g_conn g)])) /\
  l <> nil.
Proof.
  destruct pc as [ | | l0 | e | p | p | | ]; simpl.
  - destruct (pingInterval (g_opts g) <=? 0); run_M; discriminate.
  - destruct r as [|pong]; run_M.
    + destruct (ctx_Err _ _ _) as [e|] eqn:E; simpl; intros H; inversion H; subst.
      split; [reflexivity|]. split; [left; auto|discriminate].
    + destruct pong as [e|]; simpl; intros H; inversion H; subst.
      split; [reflexivity|]. split; [right; auto|discriminate].
  - run_M. discriminate.
  - run_M. destruct (chans st !! g_errs g) as [c|]; simpl;
      [destruct (closed c); simpl; [|destruct (length (buf c) <? cap c)%nat; simpl]|];
      discriminate.
  - run_M. discriminate.
  - run_M. destruct (chans st !! g_errs g) as [c|]; simpl;
      [destruct (closed c); simpl; [|destruct p; simpl]|]; discriminate.
  - discriminate.
  - discriminate.
Qed.

Lemma ctx_Err_kind t cancelled ctx :
  ctx_Err t cancelled ctx = nil \/
  ctx_Err t cancelled ctx = Some Canceled \/
  ctx_Err t cancelled ctx = Some DeadlineExceeded.
Proof.
  induction ctx as [|parent IH id|parent IH d]; simpl.
  - left; reflexivity.
  - destruct (ctx_Err t cancelled parent) as [e|]; [exact IH|].
    destruct (cancelled id); auto.
  - destruct (ctx_Err t cancelled parent) as [e|]; [exact IH|].
    destruct (d <=? t); auto.
Qed.

(** X9.  The loop is left for one of two reasons only: the goroutine took
    the context case of the [select] at a moment when the context was done,
    and the cause is one of the two context errors (cancelled, or deadline
    exceeded); or it took a tick and the ping failed, and the cause is the
    ping's error.  Nothing else ends the hold. *)
Theorem loop_exit_cause db g ms s0 l st2 :
  loop_left (fst s0) = false ->
  run db g ms s0 = (L73 l, st2) ->
  exists ms1 r ms2 st,
    ms = ms1 ++ Run r :: ms2 /\
    run db g ms1 s0 = (L65, st) /\
    runs ms2 = 0%nat /\
    l <> nil /\
    ((r = PickDone /\
      ctx_Err (now st) (fun id => bool_decide (id ∈ cancelled st)) (g_ctx g) <> nil /\
      (l = Some Canceled \/ l = Some DeadlineExceeded)) \/
     r = PickTick l).
Proof.
  intros Hs0. revert l st2.
  induction ms as [|m ms IH] using rev_ind; intros l st2 Hrun.
  - simpl in Hrun. rewrite Hrun in Hs0. discriminate Hs0.
  - rewrite run_app in Hrun. simpl in Hrun.
    destruct (run db g ms s0) as [pc st] eqn:Hms.
    destruct m as [r| |id|d]; simpl in Hrun.
    + apply step_to_L73 in Hrun. destruct Hrun as (-> & Hcase & Hl).
      exists ms, r, [], st. repeat split; auto.
      destruct Hcase as [(-> & _ & ->)|(-> & _)]; auto.
      left. split; [reflexivity|]. split; [exact Hl|].
      destruct (ctx_Err_kind (now st) (fun id => bool_decide (id ∈ cancelled st))
                  (g_ctx g)) as [H|H]; [contradiction|exact H].
    + injection Hrun as Hpc Hst. subst pc.
      destruct (IH l st eq_refl) as (ms1 & r & ms2 & st' & -> & Ha & Hb & Hc & Hd).
      exists ms1, r, (ms2 ++ [Recv]), st'. rewrite <- app_assoc. simpl.
      repeat split; auto. rewrite runs_app, Hb. reflexivity.
    + injection Hrun as Hpc Hst. subst pc.
      destruct (IH l st eq_refl) as (ms1 & r & ms2 & st' & -> & Ha & Hb & Hc & Hd).
      exists ms1, r, (ms2 ++ [Cancel id]), st'. rewrite <- app_assoc. simpl.
      repeat split; auto. rewrite runs_app, Hb. reflexivity.
    + injection Hrun as Hpc Hst. subst pc.
      destruct (IH l st eq_refl) as (ms1 & r & ms2 & st' & -> & Ha & Hb & Hc & Hd).
      exists ms1, r, (ms2 ++ [Elapse d]), st'. rewrite <- app_assoc. simpl.
      repeat split; auto. rewrite runs_app, Hb. reflexivity.
Qed.

(** The sample run leaves the loop by the context case, the context being
    done. *)
Lemma loop_exit_cause_witness :
  exists ms1 r ms2 st,
    sample_hold = ms1 ++ Run r :: ms2 /\
    run (sample_db true) sample_g ms1 (L62, sample_st1) = (L65, st) /\
    runs ms2 = 0%nat /\
    Some Canceled <> nil /\
    ((r = PickDone /\
      ctx_Err (now st) (fun id => bool_decide (id ∈ cancelled st)) (g_ctx sample_g)
      <> nil /\
      (Some Canceled = Some Canceled \/ Some Canceled = Some DeadlineExceeded)) \/
     r = PickTick (Some Canceled)).
Proof.
  assert (Hrun : run (sample_db true) sample_g sample_hold (L62, sample_st1)
                 = (L73 (Some Canceled),
                    snd (run (sample_db true) sample_g sample_hold (L62, sample_st1))))
    by (vm_compute; reflexivity).
  exact (loop_exit_cause (sample_db true) sample_g sample_hold (L62, sample_st1)
           (Some Canceled) _ eq_refl Hrun).
Defined.

(** From the end of the loop with cause [lErr], four steps of the goroutine
    end it, and [reported lErr] is what it sent. *)
Lemma after_loop db ctx lockName options st errs err st1 g ms lErr st2 ms' :
  Lock db ctx lockName options st = (Some errs, err, st1) ->
  last (gos st1) = Some g ->
  run db g ms (L62, st1) = (L73 lErr, st2) ->
  (4 <= runs ms')%nat ->
  exists st3 new c,
    run db g ms' (L73 lErr, st2) = (Returned, st3) /\
    log st3 = log st2 ++ new /\
    actions new = [unlock_event g; ChanSend errs (reported db g lErr); ChanClose errs] /\
    chans st3 !! errs = Some c /\ closed c = true /\
    delivered errs new ++ buf c = [reported db g lErr].
Proof.
  intros HL Hg Hrun Hn.
  destruct (Lock_started _ _ _ _ _ _ _ _ _ HL Hg) as (Eg & Hch & _).
  assert (Ee : g_errs g = errs) by (rewrite Eg; reflexivity).
  assert (Htick : 0 < pingInterval (g_opts g)).
  { apply (looped_ticker_ok db g ms st1 _ _ Hrun).
    unfold never_looped. intuition discriminate. }
  pose proof (Inv_schedule db g (fun l => l <> nil) st1 Htick ms (L62, st1)
                (Inv_init db g _ st1 (fun l H => H) Hch)) as HI.
  rewrite Hrun in HI. apply Inv_rebase in HI.
  pose proof (Inv_schedule db g (eq lErr) st2 Htick ms' _ HI) as HI3.
  pose proof (Inv_returns db g (eq lErr) st2 Htick ms' _ HI eq_refl Hn) as Hret.
  destruct (run db g ms' (L73 lErr, st2)) as [pc3 st3]. simpl in Hret. subst pc3.
  destruct (Inv_returned db g lErr st2 st3 HI3) as (new & c & H1 & H2 & H3 & H4 & H5).
  rewrite Ee in *. exists st3, new, c. repeat split; assumption.
Qed.

Lemma ctx_Err_benign t cancelled ctx :
  ctx_Err t cancelled ctx = nil \/ benign (ctx_Err t cancelled ctx).
Proof.
  induction ctx as [|parent IH id|parent IH d]; simpl.
  - left; reflexivity.
  - destruct (ctx_Err t cancelled parent) as [e|]; [exact IH|].
    destruct (cancelled id); [right; unfold benign; auto|left; reflexivity].
  - destruct (ctx_Err t cancelled parent) as [e|]; [exact IH|].
    destruct (d <=? t); [right; unfold benign; auto|left; reflexivity].
Qed.

Lemma reported_clean db g lErr :
  release_reply db g = nil \/ benign (release_reply db g) ->
  reported db g lErr = ignoreErr lErr.
Proof.
  intros H. unfold reported, superseded.
  assert (E : ignoreErr (release_reply db g) = nil) by (apply ignoreErr_nil_iff, H).
  rewrite E. reflexivity.
Qed.

(** X10.  Ending the context releases the lock cleanly.  When the goroutine
    is in its loop, the context is done (cancelled, or past its deadline)
    and the release request answers nil or a benign error, then the
    goroutine, once it takes the context case of the [select] and four more
    steps, has made the release request, sent nil on the channel and closed
    it. *)
Theorem done_context_reports_nil
    db ctx lockName options st errs err st1 g ms st2 ms' :
  Lock db ctx lockName options st = (Some errs, err, st1) ->
  last (gos st1) = Some g ->
  run db g ms (L62, st1) = (L65, st2) ->
  ctx_Err (now st2) (fun id => bool_decide (id ∈ cancelled st2)) (g_ctx g) <> nil ->
  release_reply db g = nil \/ benign (release_reply db g) ->
  (4 <= runs ms')%nat ->
  exists st3 new,
    run db g (Run PickDone :: ms') (L65, st2) = (Returned, st3) /\
    log st3 = log st2 ++ new /\
    actions new = [unlock_event g; ChanSend errs nil; ChanClose errs].
Proof.
  intros HL Hg Hrun Hdone Hrel Hn.
  remember (ctx_Err (now st2) (fun id => bool_decide (id ∈ cancelled st2)) (g_ctx g))
    as l eqn:El.
  assert (Hstep : sys_step db g (Run PickDone) (L65, st2) = (L73 l, st2)).
  { simpl. run_M. rewrite <- El. destruct l as [e|]; [reflexivity|].
    exfalso. apply Hdone. reflexivity. }
  assert (Hb : benign l).
  { pose proof (ctx_Err_benign (now st2) (fun id => bool_decide (id ∈ cancelled st2))
                  (g_ctx g)) as H.
    rewrite <- El in H. destruct H as [H|H]; [contradiction|exact H]. }
  assert (Hrun' : run db g (ms ++ [Run PickDone]) (L62, st1) = (L73 l, st2)).
  { rewrite run_app, Hrun. exact Hstep. }
  destruct (after_loop _ _ _ _ _ _ _ _ _ _ _ _ ms' HL Hg Hrun' Hn)
    as (st3 & new & c & H1 & H2 & H3 & _).
  exists st3, new. rewrite run_cons, Hstep.
  split; [exact H1|]. split; [exact H2|].
  rewrite H3, (reported_clean db g l Hrel).
  rewrite (ignoreErr_benign l Hb). reflexivity.
Qed.

(** The lock "A" is taken, a ping succeeds, the caller cancels. *)
Lemma done_context_reports_nil_witness :
  exists st3 new,
    run (sample_db true) sample_g (Run PickDone :: sample_finish)
      (L65, snd (run (sample_db true) sample_g
                   [Run PickDone; Run (PickTick nil); Cancel 0] (L62, sample_st1)))
    = (Returned, st3) /\
    log st3 = log (snd (run (sample_db true) sample_g
                          [Run PickDone; Run (PickTick nil); Cancel 0]
                          (L62, sample_st1))) ++ new /\
    actions new = [unlock_event sample_g; ChanSend 0%nat nil; ChanClose 0%nat].
Proof.
  pose (ms := [Run PickDone; Run (PickTick nil); Cancel 0]).
  pose (st2 := snd (run (sample_db true) sample_g ms (L62, sample_st1))).
  assert (HL : Lock (sample_db true) sample_ctx "A" [] store0
               = (Some 0%nat, nil, sample_st1)) by (vm_compute; reflexivity).
  assert (Hg : last (gos sample_st1) = Some sample_g) by (vm_compute; reflexivity).
  assert (Hrun : run (sample_db true) sample_g ms (L62, sample_st1) = (L65, st2))
    by (vm_compute; reflexivity).
  assert (Hdone : ctx_Err (now st2) (fun id => bool_decide (id ∈ cancelled st2))
                    (g_ctx sample_g) <> nil) by (vm_compute; discriminate).
  assert (Hrel : release_reply (sample_db true) sample_g = nil \/
                 benign (release_reply (sample_db true) sample_g))
    by (left; reflexivity).
  exact (done_context_reports_nil (sample_db true) sample_ctx "A" [] store0 0%nat nil
           sample_st1 sample_g ms st2 sample_finish HL Hg Hrun Hdone Hrel (le_n 4)).
Defined.

(** X11.  A failed ping ends the hold and is what the channel reports.
    When the goroutine is in its loop and a ping answers an error, then
    after that tick and four more steps the goroutine has pinged, made the
    release request, sent the classified ping error and closed the channel
    (the release answering nil or a benign error): a real error is sent as
    it is, a connection that is already closed is sent as nil. *)
Theorem failed_ping_is_reported
    db ctx lockName options st errs err st1 g ms st2 e ms' :
  Lock db ctx lockName options st = (Some errs, err, st1) ->
  last (gos st1) = Some g ->
  run db g ms (L62, st1) = (L65, st2) ->
  release_reply db g = nil \/ benign (release_reply db g) ->
  (4 <= runs ms')%nat ->
  exists st3 new,
    run db g (Run (PickTick (Some e)) :: ms') (L65, st2) = (Returned, st3) /\
    log st3 = log st2 ++ PingContext (g_ctx g) (g_conn g) :: new /\
    actions new = [unlock_event g; ChanSend errs (ignoreErr (Some e)); ChanClose errs] /\
    (~ benign (Some e) -> ignoreErr (Some e) = Some e) /\
    (e = ErrConnDone -> ignoreErr (Some e) = nil).
Proof.
  intros HL Hg Hrun Hrel Hn.
  destruct (sys_step db g (Run (PickTick (Some e))) (L65, st2)) as [pc' st2'] eqn:Hstep.
  assert (Hpc : pc' = L73 (Some e) /\
                log st2' = log st2 ++ [PingContext (g_ctx g) (g_conn g)]).
  { simpl in Hstep. run_M. inversion Hstep; subst. split; reflexivity. }
  destruct Hpc as (-> & Hlog).
  assert (Hrun' : run db g (ms ++ [Run (PickTick (Some e))]) (L62, st1)
                  = (L73 (Some e), st2')).
  { rewrite run_app, Hrun. exact Hstep. }
  destruct (after_loop _ _ _ _ _ _ _ _ _ _ _ _ ms' HL Hg Hrun' Hn)
    as (st3 & new & c & H1 & H2 & H3 & _).
  exists st3, new. rewrite run_cons, Hstep.
  split; [exact H1|].
  split; [rewrite H2, Hlog, <- app_assoc; reflexivity|].
  split; [rewrite H3, (reported_clean db g _ Hrel); reflexivity|].
  split; [apply ignoreErr_other|intros ->; reflexivity].
Qed.

(** The connection is lost while the lock "A" is held. *)
Lemma failed_ping_is_reported_witness :
  exists st3 new,
    run (sample_db true) sample_g
      (Run (PickTick (Some (ErrorString "driver: bad connection"))) :: sample_finish)
      (L65, snd (run (sample_db true) sample_g [Run PickDone] (L62, sample_st1)))
    = (Returned, st3) /\
    actions new = [unlock_event sample_g;
                   ChanSend 0%nat (Some (ErrorString "driver: bad connection"));
                   ChanClose 0%nat].
Proof.
  pose (st2 := snd (run (sample_db true) sample_g [Run PickDone] (L62, sample_st1))).
  assert (HL : Lock (sample_db true) sample_ctx "A" [] store0
               = (Some 0%nat, nil, sample_st1)) by (vm_compute; reflexivity).
  assert (Hg : last (gos sample_st1) = Some sample_g) by (vm_compute; reflexivity).
  assert (Hrun : run (sample_db true) sample_g [Run PickDone] (L62, sample_st1)
                 = (L65, st2)) by (vm_compute; reflexivity).
  assert (Hrel : release_reply (sample_db true) sample_g = nil \/
                 benign (release_reply (sample_db true) sample_g))
    by (left; reflexivity).
  destruct (failed_ping_is_reported (sample_db true) sample_ctx "A" [] store0 0%nat nil
              sample_st1 sample_g [Run PickDone] st2
              (ErrorString "driver: bad connection") sample_finish
              HL Hg Hrun Hrel (le_n 4)) as (st3 & new & H1 & _ & H3 & H4 & _).
  exists st3, new. split; [exact H1|].
  rewrite H3, H4; [reflexivity|]. unfold benign. intuition discriminate.
Defined.

(** ** The receiver *)

(** X12.  A receive on the returned channel blocks for as long as the lock
    is held and up to the send: at every program point before the send has
    happened the receive finds the channel open and empty and changes
    nothing.  Once the goroutine has returned a receive never blocks: it
    yields the value sent, or the zero value of a closed channel. *)
Theorem receive_blocks_until_sent db ctx lockName options st errs err st1 g ms pc st2 :
  Lock db ctx lockName options st = (Some errs, err, st1) ->
  last (gos st1) = Some g ->
  0 < pingInterval (g_opts g) ->
  run db g ms (L62, st1) = (pc, st2) ->
  match pc with
  | L62 | L65 | L73 _ | L77 _ => chan_recv errs st2 = (None, st2)
  | Returned =>
      (exists v, fst (chan_recv errs st2) = Some (v, true)) \/
      fst (chan_recv errs st2) = Some (nil, false)
  | _ => True
  end.
Proof.
  intros HL Hg Htick Hrun.
  destruct (Lock_started _ _ _ _ _ _ _ _ _ HL Hg) as (Eg & Hch & _).
  assert (Ee : g_errs g = errs) by (rewrite Eg; reflexivity).
  pose proof (Inv_schedule db g (fun l => l <> nil) st1 Htick ms (L62, st1)
                (Inv_init db g _ st1 (fun l H => H) Hch)) as HI.
  rewrite Hrun in HI.
  destruct HI as (new & c & _ & _ & Hc & Hpc). simpl in Hc, Hpc. rewrite Ee in Hc.
  destruct pc as [ | | l | e | p | p | | ]; simpl in Hpc; try exact I.
  - destruct Hpc as (_ & _ & -> & _). run_M. rewrite Hc. reflexivity.
  - destruct Hpc as (_ & _ & -> & _). run_M. rewrite Hc. reflexivity.
  - destruct Hpc as (_ & _ & -> & _). run_M. rewrite Hc. reflexivity.
  - destruct Hpc as (_ & _ & -> & _). run_M. rewrite Hc. reflexivity.
  - destruct Hpc as (l & _ & _ & _ & Hcl & _). run_M. rewrite Hc.
    destruct (buf c) as [|v rest]; simpl.
    + rewrite Hcl. simpl. right; reflexivity.
    + left. exists v. reflexivity.
Qed.

(** While the lock "A" is held a receive blocks. *)
Lemma receive_blocks_until_sent_witness :
  chan_recv 0%nat
    (snd (run (sample_db true) sample_g [Run PickDone; Run (PickTick nil)]
            (L62, sample_st1)))
  = (None,
     snd (run (sample_db true) sample_g [Run PickDone; Run (PickTick nil)]
            (L62, sample_st1))).
Proof.
  assert (HL : Lock (sample_db true) sample_ctx "A" [] store0
               = (Some 0%nat, nil, sample_st1)) by (vm_compute; reflexivity).
  assert (Hg : last (gos sample_st1) = Some sample_g) by (vm_compute; reflexivity).
  assert (Ht : 0 < pingInterval (g_opts sample_g)) by (vm_compute; reflexivity).
  assert (Hrun : run (sample_db true) sample_g [Run PickDone; Run (PickTick nil)]
                   (L62, sample_st1)
                 = (L65, snd (run (sample_db true) sample_g
                                [Run PickDone; Run (PickTick nil)] (L62, sample_st1))))
    by (vm_compute; reflexivity).
  exact (receive_blocks_until_sent (sample_db true) sample_ctx "A" [] store0 0%nat nil
           sample_st1 sample_g _ L65 _ HL Hg Ht Hrun).
Defined.

(** ** What is left untouched *)

Lemma step_frame db g m s ch :
  ch <> g_errs g ->
  chans (snd (sys_step db g m s)) !! ch = chans (snd s) !! ch /\
  length (chans (snd (sys_step db g m s))) = length (chans (snd s)) /\
  gos (snd (sys_step db g m s)) = gos (snd s).
Proof.
  intros Hne. destruct s as [pc st].
  destruct m as [r| |id|d]; simpl; auto.
  - destruct pc as [ | | l | e | p | p | | ]; simpl; auto.
    + destruct (pingInterval (g_opts g) <=? 0); run_M; auto.
    + destruct r as [|pong]; run_M; [destruct (notnil _)|destruct (notnil pong)];
        simpl; auto.
    + run_M. destruct (chans st !! g_errs g) as [c|]; simpl; auto.
      destruct (closed c); simpl; auto.
      destruct (length (buf c) <? cap c)%nat; simpl; auto.
      rewrite list_lookup_insert_ne by congruence. rewrite length_insert. auto.
    + run_M. destruct (chans st !! g_errs g) as [c|]; simpl; auto.
      destruct (closed c); simpl; auto.
      destruct p; simpl;
        (rewrite list_lookup_insert_ne by congruence); rewrite length_insert; auto.
  - run_M. destruct (chans st !! g_errs g) as [c|]; simpl; auto.
    destruct (buf c) as [|v rest]; simpl.
    + destruct (closed c); simpl; auto.
    + rewrite list_lookup_insert_ne by congruence. rewrite length_insert. auto.
Qed.

(** X13.  Under every schedule the goroutine and the receiver of its channel
    leave every other channel as it is, create no channel and start no
    goroutine: on the side of channels and goroutines a lock interferes
    with nothing but its own channel. *)
Theorem goroutine_frame db g ms s ch :
  ch <> g_errs g ->
  chans (snd (run db g ms s)) !! ch = chans (snd s) !! ch /\
  length (chans (snd (run db g ms s))) = length (chans (snd s)) /\
  gos (snd (run db g ms s)) = gos (snd s).
Proof.
  intros Hne. revert s. induction ms as [|m ms IH]; intros s; [simpl; auto|].
  rewrite run_cons.
  destruct (IH (sys_step db g m s)) as (H1 & H2 & H3).
  destruct (step_frame db g m s ch Hne) as (F1 & F2 & F3).
  repeat split; congruence.
Qed.

(** A second channel in the store is not touched by the run of the first
    lock's goroutine. *)
Lemma goroutine_frame_witness :
  chans (snd (run (sample_db true) sample_g (sample_hold ++ sample_finish)
                (L62, snd (make_chan 1 sample_st1)))) !! 1%nat
  = Some (mkChan 1 [] false).
Proof.
  assert (Hne : 1%nat <> g_errs sample_g) by (vm_compute; discriminate).
  destruct (goroutine_frame (sample_db true) sample_g (sample_hold ++ sample_finish)
              (L62, snd (make_chan 1 sample_st1)) 1%nat Hne) as (H & _).
  etransitivity; [exact H|]. vm_compute. reflexivity.
Defined.

(** X14.  [Lock] only adds to the store: whatever it returns, the sessions,
    channels, goroutines and log entries that existed before the call are
    still there, unchanged, at the same places. *)
Theorem Lock_frame db ctx lockName options st :
  let st' := snd (Lock db ctx lockName options st) in
  conns st `prefix_of` conns st' /\
  chans st `prefix_of` chans st' /\
  gos st `prefix_of` gos st' /\
  log st `prefix_of` log st'.
Proof.
  cbv zeta.
  destruct (Lock db ctx lockName options st) as [res st'] eqn:HL. simpl.
  revert HL. unfold Lock. unfold mbind at 1, M_bind at 1.
  destruct (db_Conn db ctx st) as [[conn|e] st0] eqn:Hc.
  - apply db_Conn_ok in Hc. destruct Hc as (_ & -> & Hst0).
    unfold mbind at 1, M_bind at 1.
    pose proof (getLock_frame db ctx (length (conns st)) lockName
                  (timeout (apply_options options)) st0) as Hfr.
    assert (Hlog : log st0 `prefix_of`
                     log (snd (getLock db ctx (length (conns st)) lockName
                                 (timeout (apply_options options)) st0))).
    { unfold getLock. destruct (timeout (apply_options options) =? 0).
      - rewrite tryLock_log. eexists; reflexivity.
      - rewrite waitForLock_log. eexists; reflexivity. }
    destruct (getLock _ _ _ _ _ st0) as [[ok e] st2]. simpl in Hfr, Hlog.
    destruct Hfr as (Fc & Fch & Fg & Fca).
    assert (Hl0 : log st `prefix_of` log st2).
    { etransitivity; [|exact Hlog]. rewrite Hst0. simpl. eexists; reflexivity. }
    rewrite Hst0 in Fc, Fch, Fg, Fca. simpl in Fc, Fch, Fg, Fca.
    destruct (notnil e || negb ok); run_M; intros HL; inversion HL; subst res st';
      simpl; rewrite ?Fc, ?Fch, ?Fg, ?Fca;
      repeat split;
      first [ reflexivity
            | eexists; reflexivity
            | rewrite insert_app_r_alt by lia; eexists; reflexivity
            | etransitivity; [exact Hl0|]; rewrite <- ?app_assoc; eexists; reflexivity ].
  - revert Hc. run_M. destruct (Conn_reply db ctx); simpl; intros H; inversion H; subst.
    intros HL; inversion HL; subst. simpl.
    repeat split; first [reflexivity | eexists; reflexivity].
Qed.

(** ** A ping interval that is not positive *)

Lemma no_ticker_step_log db g m pc st :
  pingInterval (g_opts g) <= 0 ->
  never_looped pc ->
  let s' := sys_step db g m (pc, st) in
  never_looped (fst s') /\
  (runs [m] = 1%nat -> panic_steps (fst s') = Nat.pred (panic_steps pc)) /\
  (runs [m] = 0%nat -> fst s' = pc) /\
  exists evs, log (snd s') = log st ++ evs /\ Forall close_or_recv evs.
Proof.
  intros Hp Hn. simpl.
  assert (Hnil : exists evs, log st = log st ++ evs /\ Forall close_or_recv evs).
  { exists []. rewrite app_nil_r. split; [reflexivity|constructor]. }
  assert (Hclose : forall ch, exists evs,
             log st ++ [ChanClose ch] = log st ++ evs /\ Forall close_or_recv evs).
  { intros ch. eexists. split; [reflexivity|]. constructor; [|constructor].
    left. eexists. reflexivity. }
  assert (Hrecv : forall ch v ok, exists evs,
             log st ++ [ChanRecv ch v ok] = log st ++ evs /\ Forall close_or_recv evs).
  { intros ch v ok. eexists. split; [reflexivity|]. constructor; [|constructor].
    right. do 3 eexists. reflexivity. }
  destruct m as [r| |id|d]; simpl.
  - split; [apply (no_ticker_step db g (Run r) pc st Hp Hn)|].
    split; [|split; [unfold runs; simpl; discriminate|]].
    + intros _. destruct Hn as [->|[->| ->]]; simpl.
      * destruct (Z.leb_spec (pingInterval (g_opts g)) 0); [|lia]. reflexivity.
      * run_M. destruct (chans st !! g_errs g) as [c|]; simpl; auto.
        destruct (closed c); simpl; auto.
      * reflexivity.
    + destruct Hn as [->|[->| ->]]; simpl.
      * destruct (Z.leb_spec (pingInterval (g_opts g)) 0); [|lia]. exact Hnil.
      * run_M. destruct (chans st !! g_errs g) as [c|]; simpl; auto.
        destruct (closed c); simpl; auto.
      * exact Hnil.
  - split; [exact Hn|]. split; [unfold runs; simpl; discriminate|].
    split; [reflexivity|].
    run_M. destruct (chans st !! g_errs g) as [c|]; simpl; auto.
    destruct (buf c) as [|v rest]; simpl; auto.
    destruct (closed c); simpl; auto.
  - split; [exact Hn|]. split; [unfold runs; simpl; discriminate|]. auto.
  - split; [exact Hn|]. split; [unfold runs; simpl; discriminate|]. auto.
Qed.

(** X15.  With a ping interval that is zero or negative the goroutine never
    holds the lock properly: [time.NewTicker] panics at its first step, the
    deferred close runs at the second, and that is all.  Under every
    schedule it makes no release request and sends nothing; the only thing
    a receiver can see is the closed channel. *)
Theorem nonpositive_interval_panics db g ms pc st :
  pingInterval (g_opts g) <= 0 ->
  never_looped pc ->
  let s' := run db g ms (pc, st) in
  never_looped (fst s') /\
  ((panic_steps pc <= runs ms)%nat -> fst s' = Panicked) /\
  exists new, log (snd s') = log st ++ new /\ Forall close_or_recv new.
Proof.
  intros Hp. revert pc st. induction ms as [|m ms IH]; intros pc st Hn; simpl.
  - split; [exact Hn|]. split.
    + unfold runs. simpl. destruct Hn as [->|[->| ->]]; simpl; intros H; try lia.
      reflexivity.
    + exists []. rewrite app_nil_r. split; [reflexivity|constructor].
  - destruct (no_ticker_step_log db g m pc st Hp Hn) as (Hn' & Hrun & Hkeep & evs & Hl & He).
    fold (run db g ms (sys_step db g m (pc, st))).
    destruct (sys_step db g m (pc, st)) as [pc' st'] eqn:Hs. simpl in *.
    destruct (IH pc' st' Hn') as (H1 & H2 & new & H3 & H4).
    split; [exact H1|]. split.
    + intros Hle. apply H2.
      change (m :: ms) with ([m] ++ ms) in Hle. rewrite runs_app in Hle.
      assert (Hm : runs [m] = 1%nat \/ runs [m] = 0%nat)
        by (destruct m; unfold runs; simpl; auto).
      destruct Hm as [Hm|Hm].
      * rewrite (Hrun Hm). lia.
      * rewrite (Hkeep Hm). lia.
    + exists (evs ++ new). split; [rewrite H3, Hl, app_assoc; reflexivity|].
      apply Forall_app. auto.
Qed.

(** [WithPingInterval(0)]: two steps and the goroutine has panicked, having
    closed the channel and nothing else. *)
Lemma nonpositive_interval_panics_witness :
  fst (run (sample_db true)
         (mkClosure sample_ctx 0%nat "A" (apply_options [WithPingInterval 0]) 0%nat)
         [Run PickDone; Recv; Run PickDone] (L62, sample_st1)) = Panicked.
Proof.
  assert (Hp : pingInterval
                 (g_opts (mkClosure sample_ctx 0%nat "A"
                            (apply_options [WithPingInterval 0]) 0%nat)) <= 0)
    by (vm_compute; discriminate).
  destruct (nonpositive_interval_panics (sample_db true) _
              [Run PickDone; Recv; Run PickDone] L62 sample_st1 Hp
              (or_introl eq_refl)) as (_ & H & _).
  apply H. vm_compute. lia.
Defined.

(** ** The first version of the package *)

Ltac run_V0 :=
  unfold V0.Lock, V0.getLock, V0.releaseLock, V0.recv_step, V0.chan_rendezvous;
  run_M.

Lemma V0_getLock_frame db ctx conn id timeout st :
  let st' := snd (V0.getLock db ctx conn id timeout st) in
  conns st' = conns st /\ chans st' = chans st /\ gos st' = gos st.
Proof. run_V0. auto. Qed.

(** X16.  The first version has one acquisition mode: every claim is the
    blocking one, made under a deadline [timeout] after the call, and its
    error is returned as it is.  With a timeout of zero or less that
    deadline has already come when the request is made: the claim goes out
    under a context that is done. *)
Theorem V0_getLock_always_waits db ctx conn id timeout st :
  let ctx' := WithDeadline ctx (now st + timeout) in
  fst (V0.getLock db ctx conn id timeout st) = Exec_reply db ctx' conn lock_query id /\
  log (snd (V0.getLock db ctx conn id timeout st))
  = log st ++ [ExecContext ctx' conn lock_query id; CancelFunc ctx'] /\
  (timeout <= 0 -> forall cancelled, ctx_Err (now st) cancelled ctx' <> nil).
Proof.
  simpl. split; [reflexivity|]. split.
  - run_V0. rewrite <- app_assoc. reflexivity.
  - intros Ht cancelled. apply ctx_Err_WithDeadline. right. lia.
Qed.

Lemma V0_getLock_always_waits_witness :
  ctx_Err (now store0) (fun _ => false) (WithDeadline sample_ctx (now store0 + 0)) <> nil.
Proof.
  assert (H0 : 0 <= 0) by lia.
  exact (proj2 (proj2 (V0_getLock_always_waits (sample_db true) sample_ctx 0%nat
                         (lockID "A") 0 store0)) H0 (fun _ => false)).
Defined.

(** X17.  When the claim fails, the first version returns the error of the
    claim itself with no channel, and that is all it does after the claim:
    the session it checked out is not closed. *)
Theorem V0_Lock_failure_leaves_session db ctx lockName t st conn e st1 st2 :
  db_Conn db ctx st = (inl conn, st1) ->
  V0.getLock db ctx conn (lockID lockName) t st1 = (Some e, st2) ->
  V0.Lock db ctx lockName t st = (None, Some e, st2) /\
  conns st2 !! conn = Some true /\
  chans st2 = chans st /\ gos st2 = gos st.
Proof.
  intros Hc Hg.
  pose proof (V0_getLock_frame db ctx conn (lockID lockName) t st1) as Hfr.
  cbv zeta in Hfr. rewrite Hg in Hfr. simpl in Hfr. destruct Hfr as (Fc & Fch & Fg).
  split.
  - unfold V0.Lock. unfold mbind at 1, M_bind at 1. rewrite Hc.
    unfold mbind at 1, M_bind at 1. fold (lockID lockName). rewrite Hg. reflexivity.
  - apply db_Conn_ok in Hc. destruct Hc as (_ & -> & ->). simpl in *.
    rewrite Fc, Fch, Fg. repeat split.
    rewrite lookup_app_r by lia. rewrite Nat.sub_diag. reflexivity.
Qed.

(** A wait of a second that runs out of time. *)
Lemma V0_Lock_failure_leaves_session_witness :
  fst (V0.Lock waiting_db sample_ctx "A" Second store0) = (None, Some DeadlineExceeded) /\
  conns (snd (V0.Lock waiting_db sample_ctx "A" Second store0)) !! 0%nat = Some true.
Proof.
  pose (st1 := snd (db_Conn waiting_db sample_ctx store0)).
  pose (st2 := snd (V0.getLock waiting_db sample_ctx 0%nat (lockID "A") Second st1)).
  assert (Hc : db_Conn waiting_db sample_ctx store0 = (inl 0%nat, st1))
    by (vm_compute; reflexivity).
  assert (Hg : V0.getLock waiting_db sample_ctx 0%nat (lockID "A") Second st1
               = (Some DeadlineExceeded, st2)) by (vm_compute; reflexivity).
  destruct (V0_Lock_failure_leaves_session waiting_db sample_ctx "A" Second store0
              0%nat DeadlineExceeded st1 st2 Hc Hg) as (H1 & H2 & _).
  rewrite H1. simpl. split; [reflexivity|exact H2].
Defined.

Lemma V0_Lock_started db ctx lockName t st errs err st1 g :
  V0.Lock db ctx lockName t st = (Some errs, err, st1) ->
  last (gos st1) = Some g ->
  g_errs g = errs /\
  g_lockName g = lockName /\
  chans st1 !! errs = Some V0.fresh_chan.
Proof.
  unfold V0.Lock. unfold mbind at 1, M_bind at 1.
  destruct (db_Conn db ctx st) as [[conn|e] st0] eqn:Hc; [|simpl; discriminate].
  apply db_Conn_ok in Hc. destruct Hc as (_ & -> & Hst0).
  unfold mbind at 1, M_bind at 1.
  pose proof (V0_getLock_frame db ctx (length (conns st))
                (crc32.ChecksumIEEE (bytes_of_string lockName)) t st0) as Hfr.
  cbv zeta in Hfr.
  destruct (V0.getLock _ _ _ _ _ st0) as [e st2]. simpl in Hfr.
  destruct Hfr as (Fc & Fch & Fg).
  destruct e as [e|]; simpl; [discriminate|]. run_M.
  intros H. inversion H; subst; clear H. simpl.
  rewrite last_snoc. intros Hg. inversion Hg; subst g; clear Hg. simpl.
  repeat split. rewrite lookup_app_r by lia. rewrite Nat.sub_diag. reflexivity.
Qed.

Lemma V0_run_cons db g m ms s :
  V0.run db g (m :: ms) s = V0.run db g ms (V0.sys_step db g m s).
Proof. reflexivity. Qed.

Lemma V0_run_app db g ms1 ms2 s :
  V0.run db g (ms1 ++ ms2) s = V0.run db g ms2 (V0.run db g ms1 s).
Proof. unfold V0.run. apply fold_left_app. Qed.

Lemma V0_Inv_step db g base m s :
  V0.Inv db g base s -> V0.Inv db g base (V0.sys_step db g m s).
Proof.
  destruct s as [pc st].
  intros (new & c & Hlog & Hconns & Hch & Hpc). simpl in Hlog, Hconns, Hch, Hpc.
  unfold V0.Inv.
  destruct m as [r| |id|d]; simpl.
  - (* the goroutine *)
    destruct pc as [ | | v | | | ]; simpl in Hpc; try contradiction.
    + simpl. run_M. destruct (notnil _); simpl; exists new, c; simpl; repeat split; try tauto; auto.
    + simpl. run_V0. exists (new ++ [unlock_event g]), c.
      split; [simpl; rewrite Hlog, <- app_assoc; reflexivity|].
      split; [exact Hconns|]. split; [exact Hch|]. simpl.
      destruct Hpc as (Ha & -> & Hd).
      rewrite actions_app, delivered_app, Ha, Hd. simpl; repeat split; try tauto; auto.
    + destruct Hpc as (-> & Ha & -> & Hd).
      simpl. run_M. rewrite Hch. simpl. exists new, V0.fresh_chan. simpl; repeat split; try tauto; auto.
    + destruct Hpc as (Ha & -> & Hd).
      simpl. run_M. rewrite Hch. simpl.
      exists (new ++ [ChanClose (g_errs g)]), (mkChan 0 [] true).
      split; [rewrite Hlog, <- app_assoc; reflexivity|].
      split; [exact Hconns|].
      split; [apply list_lookup_insert_eq; eapply lookup_lt_Some; exact Hch|].
      simpl. rewrite actions_app, delivered_app, Ha, Hd. simpl; repeat split; try tauto; auto.
    + simpl. exists new, c. simpl; repeat split; try tauto; auto.
  - (* the receiver *)
    destruct pc as [ | | v | | | ]; simpl in Hpc; try contradiction.
    + destruct Hpc as (Ha & -> & Hd). run_V0. rewrite Hch. simpl.
      exists new, V0.fresh_chan. simpl; repeat split; try tauto; auto.
    + destruct Hpc as (Ha & -> & Hd). run_V0. rewrite Hch. simpl.
      exists new, V0.fresh_chan. simpl; repeat split; try tauto; auto.
    + destruct Hpc as (-> & Ha & -> & Hd). run_V0. rewrite Hch. simpl.
      exists (new ++ [ChanSend (g_errs g) (release_reply db g);
                      ChanRecv (g_errs g) (release_reply db g) true]), V0.fresh_chan.
      split; [rewrite Hlog, <- !app_assoc; reflexivity|].
      split; [exact Hconns|]. split; [exact Hch|]. simpl.
      rewrite actions_app, delivered_app, Ha, Hd. simpl.
      rewrite Nat.eqb_refl. auto.
    + destruct Hpc as (Ha & -> & Hd). run_V0. rewrite Hch. simpl.
      exists new, V0.fresh_chan. simpl; repeat split; try tauto; auto.
    + destruct Hpc as (Ha & -> & Hd). run_V0. rewrite Hch. simpl.
      exists (new ++ [ChanRecv (g_errs g) nil false]), (mkChan 0 [] true).
      split; [rewrite Hlog, <- app_assoc; reflexivity|].
      split; [exact Hconns|]. split; [exact Hch|]. simpl.
      rewrite actions_app, delivered_app, Ha, Hd. simpl; repeat split; try tauto; auto.
  - exists new, c. simpl; repeat split; try tauto; auto.
  - exists new, c. simpl; repeat split; try tauto; auto.
Qed.

Lemma V0_Inv_schedule db g base ms s :
  V0.Inv db g base s -> V0.Inv db g base (V0.run db g ms s).
Proof.
  revert s. induction ms as [|m ms IH]; intros s H; [exact H|].
  rewrite V0_run_cons. apply IH, V0_Inv_step, H.
Qed.

Lemma V0_Inv_init db g st1 :
  chans st1 !! g_errs g = Some V0.fresh_chan -> V0.Inv db g st1 (V0.L25, st1).
Proof.
  intros H. exists [], V0.fresh_chan. simpl. rewrite app_nil_r.
  repeat split; auto.
Qed.

(** X18.  In the first version a channel that nobody receives from holds
    the goroutine for ever: under every schedule without a receive the
    goroutine gets at most as far as its send, so it never closes the
    channel and never returns, and nothing but the release request has been
    made. *)
Theorem V0_unread_channel_blocks db ctx lockName t st errs err st1 g ms pc st2 :
  V0.Lock db ctx lockName t st = (Some errs, err, st1) ->
  last (gos st1) = Some g ->
  receives ms = 0%nat ->
  V0.run db g ms (V0.L25, st1) = (pc, st2) ->
  pc <> V0.L27 /\ pc <> V0.Returned /\ pc <> V0.Panicked /\
  exists new,
    log st2 = log st1 ++ new /\
    actions new `prefix_of` [unlock_event g].
Proof.
  intros HL Hg Hrecv Hrun.
  destruct (V0_Lock_started _ _ _ _ _ _ _ _ _ HL Hg) as (Ee & _ & Hch).
  rewrite <- Ee in Hch.
  assert (Hgen : forall ms s,
             receives ms = 0%nat ->
             V0.Inv db g st1 s ->
             fst s <> V0.L27 /\ fst s <> V0.Returned ->
             fst (V0.run db g ms s) <> V0.L27 /\
             fst (V0.run db g ms s) <> V0.Returned).
  { clear. induction ms as [|m ms IH]; intros [pc st] Hr HI Hpc; [exact Hpc|].
    rewrite V0_run_cons.
    assert (Hr' : receives ms = 0%nat /\ m <> Recv).
    { unfold receives in *. destruct m; simpl in Hr; try discriminate; auto.
      all: split; [exact Hr|discriminate]. }
    destruct Hr' as (Hr' & Hm).
    apply IH; [exact Hr'|apply V0_Inv_step, HI|].
    destruct HI as (new & c & _ & _ & Hc & Hat). simpl in Hc, Hat, Hpc.
    destruct m as [r| |id|d]; simpl; try exact Hpc; [|contradiction].
    destruct pc as [ | | v | | | ]; simpl in Hat; try tauto.
    - simpl. run_M. destruct (notnil _); simpl; split; discriminate.
    - simpl. split; discriminate.
    - destruct Hat as (_ & _ & -> & _). simpl. run_M. rewrite Hc. simpl.
      split; discriminate. }
  pose proof (V0_Inv_schedule db g st1 ms _ (V0_Inv_init db g st1 Hch)) as HI.
  assert (H25 : fst (V0.L25, st1) <> V0.L27 /\ fst (V0.L25, st1) <> V0.Returned)
    by (simpl; split; discriminate).
  pose proof (Hgen ms (V0.L25, st1) Hrecv (V0_Inv_init db g st1 Hch) H25) as Hpc.
  rewrite Hrun in HI, Hpc. simpl in Hpc. destruct Hpc as (Hp1 & Hp2).
  destruct HI as (new & c & Hlog & _ & _ & Hat). simpl in Hlog, Hat.
  split; [exact Hp1|]. split; [exact Hp2|].
  split; [intros ->; exact Hat|].
  exists new. split; [exact Hlog|].
  destruct pc as [ | | v | | | ]; simpl in Hat; try contradiction.
  - destruct Hat as (-> & _). apply prefix_nil.
  - destruct Hat as (-> & _). apply prefix_nil.
  - destruct Hat as (_ & -> & _). reflexivity.
Qed.

(** The context is cancelled, the lock released, and the goroutine stays at
    its send. *)
Lemma V0_unread_channel_blocks_witness :
  fst (V0.run gone_db v0_g
         [Cancel 0; Run PickDone; Run PickDone; Run PickDone; Run PickDone]
         (V0.L25, v0_st1))
  <> V0.Returned.
Proof.
  pose (ms := [Cancel 0; Run PickDone; Run PickDone; Run PickDone; Run PickDone]).
  assert (HL : V0.Lock gone_db sample_ctx "A" Second store0 = (Some 0%nat, nil, v0_st1))
    by (vm_compute; reflexivity).
  assert (Hg : last (gos v0_st1) = Some v0_g) by (vm_compute; reflexivity).
  assert (Hrun : V0.run gone_db v0_g ms (V0.L25, v0_st1)
                 = (fst (V0.run gone_db v0_g ms (V0.L25, v0_st1)),
                    snd (V0.run gone_db v0_g ms (V0.L25, v0_st1))))
    by (vm_compute; reflexivity).
  destruct (V0_unread_channel_blocks gone_db sample_ctx "A" Second store0 0%nat nil
              v0_st1 v0_g ms _ _ HL Hg eq_refl Hrun) as (_ & H & _).
  exact H.
Defined.

(** X19.  In the first version the channel reports the answer of the release
    request as it is, benign or not.  Whenever the goroutine has returned,
    it has made the release request, sent that answer and closed the
    channel, and the receiver has got that answer.  And from the wait for
    the context, once the context is done, two steps of the goroutine, a
    receive and one more step bring it there. *)
Theorem V0_reports_release_answer db ctx lockName t st errs err st1 g ms :
  V0.Lock db ctx lockName t st = (Some errs, err, st1) ->
  last (gos st1) = Some g ->
  let rel := Exec_reply db Background (g_conn g) unlock_query (lockID lockName) in
  (forall st2,
      V0.run db g ms (V0.L25, st1) = (V0.Returned, st2) ->
      exists new,
        log st2 = log st1 ++ new /\
        actions new = [unlock_event g; ChanSend errs rel; ChanClose errs] /\
        delivered errs new = [rel]) /\
  (forall st2 r1 r2 r3,
      V0.run db g ms (V0.L25, st1) = (V0.L25, st2) ->
      ctx_Err (now st2) (fun id => bool_decide (id ∈ cancelled st2)) (g_ctx g) <> nil ->
      exists st3,
        V0.run db g [Run r1; Run r2; Recv; Run r3] (V0.L25, st2) = (V0.Returned, st3) /\
        log st3 = log st2 ++ [unlock_event g; ChanSend errs rel;
                              ChanRecv errs rel true; ChanClose errs]).
Proof.
  intros HL Hg rel.
  destruct (V0_Lock_started _ _ _ _ _ _ _ _ _ HL Hg) as (Ee & En & Hch).
  rewrite <- Ee in *. subst lockName.
  assert (Er : release_reply db g = rel) by reflexivity.
  pose proof (V0_Inv_schedule db g st1 ms _ (V0_Inv_init db g st1 Hch)) as HI.
  split.
  - intros st2 Hrun. rewrite Hrun in HI.
    destruct HI as (new & c & Hlog & _ & _ & Hat). simpl in Hlog, Hat.
    rewrite Er in Hat. destruct Hat as (Ha & _ & Hd).
    exists new. auto.
  - intros st2 r1 r2 r3 Hrun Hdone. rewrite Hrun in HI.
    destruct HI as (new & c & Hlog & _ & Hc & Hat). simpl in Hlog, Hc, Hat.
    destruct Hat as (_ & -> & _).
    assert (Hd : exists e, ctx_Err (now st2) (fun id => bool_decide (id ∈ cancelled st2))
                             (g_ctx g) = Some e).
    { destruct (ctx_Err (now st2) _ (g_ctx g)) as [e|]; [eauto|].
      exfalso. apply Hdone. reflexivity. }
    destruct Hd as (e & He).
    set (u := ExecContext Background (g_conn g) unlock_query (lockID (g_lockName g))).
    set (st_a := mkStore (now st2 + took db u) (cancelled st2) (conns st2) (chans st2)
                   (gos st2) (log st2 ++ [u])).
    set (st_b := mkStore (now st_a) (cancelled st2) (conns st2) (chans st2) (gos st2)
                   ((log st_a ++ [ChanSend (g_errs g) rel])
                    ++ [ChanRecv (g_errs g) rel true])).
    set (st_c := mkStore (now st_a) (cancelled st2) (conns st2)
                   (<[g_errs g := mkChan 0 [] true]> (chans st2)) (gos st2)
                   (log st_b ++ [ChanClose (g_errs g)])).
    assert (S1 : V0.sys_step db g (Run r1) (V0.L25, st2) = (V0.L26, st2)).
    { simpl. run_M. rewrite He. reflexivity. }
    assert (S2 : V0.sys_step db g (Run r2) (V0.L26, st2) = (V0.L26_send rel, st_a)).
    { simpl. run_V0. reflexivity. }
    assert (S3 : V0.sys_step db g Recv (V0.L26_send rel, st_a) = (V0.L27, st_b)).
    { simpl. run_V0. rewrite Hc. reflexivity. }
    assert (S4 : V0.sys_step db g (Run r3) (V0.L27, st_b) = (V0.Returned, st_c)).
    { simpl. run_M. rewrite Hc. reflexivity. }
    exists st_c. split.
    + rewrite !V0_run_cons, S1, S2, S3, S4. reflexivity.
    + simpl. rewrite <- !app_assoc. simpl.
      reflexivity.
Qed.

(** The session is gone when the lock "A" is released: the receiver gets
    [sql.ErrConnDone], which the later version would have suppressed. *)
Lemma V0_reports_release_answer_witness :
  exists st3,
    V0.run gone_db v0_g [Run PickDone; Run PickDone; Recv; Run PickDone]
      (V0.L25, snd (V0.run gone_db v0_g [Cancel 0] (V0.L25, v0_st1)))
    = (V0.Returned, st3) /\
    log st3 = log (snd (V0.run gone_db v0_g [Cancel 0] (V0.L25, v0_st1)))
              ++ [unlock_event v0_g; ChanSend 0%nat (Some ErrConnDone);
                  ChanRecv 0%nat (Some ErrConnDone) true; ChanClose 0%nat].
Proof.
  pose (st2 := snd (V0.run gone_db v0_g [Cancel 0] (V0.L25, v0_st1))).
  assert (HL : V0.Lock gone_db sample_ctx "A" Second store0 = (Some 0%nat, nil, v0_st1))
    by (vm_compute; reflexivity).
  assert (Hg : last (gos v0_st1) = Some v0_g) by (vm_compute; reflexivity).
  assert (Hrun : V0.run gone_db v0_g [Cancel 0] (V0.L25, v0_st1) = (V0.L25, st2))
    by (vm_compute; reflexivity).
  assert (Hdone : ctx_Err (now st2) (fun id => bool_decide (id ∈ cancelled st2))
                    (g_ctx v0_g) <> nil) by (vm_compute; discriminate).
  destruct (V0_reports_release_answer gone_db sample_ctx "A" Second store0 0%nat nil
              v0_st1 v0_g [Cancel 0] HL Hg) as (_ & Hlive).
  exact (Hlive st2 PickDone PickDone PickDone Hrun Hdone).
Defined.

(** ** The completion signal and the ping interval *)

Lemma no_ticker_run_log db g ms pc st :
  pingInterval (g_opts g) <= 0 ->
  never_looped pc ->
  exists new,
    log (snd (run db g ms (pc, st))) = log st ++ new /\ Forall close_or_recv new.
Proof.
  intros Hp. revert pc st. induction ms as [|m ms IH]; intros pc st Hn.
  - exists []. simpl. rewrite app_nil_r. split; [reflexivity|constructor].
  - rewrite run_cons.
    destruct (no_ticker_step_log db g m pc st Hp Hn) as (Hn' & _ & _ & evs & Hl & He).
    destruct (sys_step db g m (pc, st)) as [pc' st'] eqn:Hs. simpl in *.
    destruct (IH pc' st' Hn') as (new & H3 & H4).
    exists (evs ++ new). split; [rewrite H3, Hl, app_assoc; reflexivity|].
    apply Forall_app. auto.
Qed.

(** C1 as stated fails for a ping interval that is not positive.
    [Lock(ctx, db, "A", WithPingInterval(0))] succeeds; the goroutine then
    panics in [time.NewTicker] and its deferred [close(errs)] runs: the
    channel is closed although no release was attempted and no value sent,
    and under no schedule is a value ever sent or the release requested. *)
Lemma completion_signal_counterexample :
  Lock (sample_db true) sample_ctx "A" [WithPingInterval 0] store0
  = (Some 0%nat, nil, zero_st1) /\
  last (gos zero_st1) = Some zero_g /\
  fst (run (sample_db true) zero_g [Run PickDone; Run PickDone] (L62, zero_st1))
  = Panicked /\
  log (snd (run (sample_db true) zero_g [Run PickDone; Run PickDone] (L62, zero_st1)))
  = log zero_st1 ++ [ChanClose 0%nat] /\
  ~ (exists ms v,
        In (ChanSend 0%nat v)
           (log (snd (run (sample_db true) zero_g ms (L62, zero_st1))))) /\
  ~ (exists ms,
        In (unlock_event zero_g)
           (log (snd (run (sample_db true) zero_g ms (L62, zero_st1))))).
Proof.
  assert (Hp : pingInterval (g_opts zero_g) <= 0) by (vm_compute; discriminate).
  assert (Hlog1 : log zero_st1
                  = [DBConn sample_ctx;
                     QueryRowScan sample_ctx 0%nat try_query (lockID "A");
                     MakeChan 0%nat 1; GoStmt zero_g])
    by (vm_compute; reflexivity).
  assert (Hnew : forall ms e,
             In e (log (snd (run (sample_db true) zero_g ms (L62, zero_st1)))) ->
             In e (log zero_st1) \/ close_or_recv e).
  { intros ms e Hin.
    destruct (no_ticker_run_log (sample_db true) zero_g ms L62 zero_st1 Hp
                (or_introl eq_refl)) as (new & Hl & Hf).
    rewrite Hl in Hin. apply in_app_iff in Hin. destruct Hin as [Hin|Hin]; [auto|].
    right. rewrite List.Forall_forall in Hf. apply Hf, Hin. }
  split; [vm_compute; reflexivity|].
  split; [vm_compute; reflexivity|].
  split; [vm_compute; reflexivity|].
  split; [vm_compute; reflexivity|].
  split.
  - intros (ms & v & Hin). apply Hnew in Hin. destruct Hin as [Hin|Hin].
    + rewrite Hlog1 in Hin. simpl in Hin. intuition discriminate.
    + destruct Hin as [(ch & H)|(ch & w & ok & H)]; discriminate H.
  - intros (ms & Hin). apply Hnew in Hin. destruct Hin as [Hin|Hin].
    + rewrite Hlog1 in Hin. unfold unlock_event in Hin. simpl in Hin.
      intuition discriminate.
    + destruct Hin as [(ch & H)|(ch & w & ok & H)]; discriminate H.
Qed.
